(** * rip3: the sqlite persistence layer (py/DB.py)

    A shallow embedding of the [DB] class: the declarative [SCHEMA] and
    [INDICES] tables, the schema compiler [create_table], [create_index],
    the commit loop, the generic query builders and the config store,
    followed by the properties established about them.

    Python strings are [string]; the two module-level dict literals are
    [gmap string string]; the sqlite3 connection is an interface
    ([Engine]); a method of [DB] is a function from the object's state to
    an outcome and a new state. *)

From Stdlib Require Import Ascii String.
From stdpp Require Import gmap strings list fin_maps.

(** ** Python [str] methods used by the module *)

Module Str.

Local Open Scope char_scope.

Definition tab : ascii := "009".
Definition nl : ascii := "010".
Definition dquote : ascii := "034".

(** [c in s] for a one-character [c]. *)
Fixpoint contains (c : ascii) (s : string) : bool :=
  match s with
  | EmptyString => false
  | String a s' => Ascii.eqb a c || contains c s'
  end.

(** [s.split(sep)] for a one-character separator: every occurrence
    cuts, empty pieces are kept, and the result is never empty. *)
Fixpoint split (sep : ascii) (s : string) : list string :=
  match s with
  | EmptyString => [EmptyString]
  | String a s' =>
      if Ascii.eqb a sep then EmptyString :: split sep s'
      else match split sep s' with
           | [] => [String a EmptyString]
           | w :: ws => String a w :: ws
           end
  end.

(** [sep.join(l)]. *)
Fixpoint join (sep : string) (l : list string) : string :=
  match l with
  | [] => EmptyString
  | [x] => x
  | x :: xs => x +:+ sep +:+ join sep xs
  end.

Definition lower_char (a : ascii) : ascii :=
  let n := nat_of_ascii a in
  if (65 <=? n)%nat && (n <=? 90)%nat then ascii_of_nat (n + 32) else a.

(** [s.lower()] on a byte string. *)
Fixpoint lower (s : string) : string :=
  match s with
  | EmptyString => EmptyString
  | String a s' => String (lower_char a) (lower s')
  end.

Fixpoint spaces (n : nat) : string :=
  match n with
  | O => EmptyString
  | S n' => String " " (spaces n')
  end.

(** [s.rjust(width)]: padded on the left with blanks, never cut. *)
Definition rjust (width : nat) (s : string) : string :=
  spaces (width - String.length s) +:+ s.

(** The characters [str.strip()] removes. *)
Definition is_space (a : ascii) : bool :=
  match a with
  | "009" | "010" | "011" | "012" | "013" | " " => true
  | _ => false
  end.

Fixpoint lstrip (s : string) : string :=
  match s with
  | EmptyString => EmptyString
  | String a s' => if is_space a then lstrip s' else s
  end.

Fixpoint rstrip (s : string) : string :=
  match s with
  | EmptyString => EmptyString
  | String a s' =>
      match rstrip s' with
      | EmptyString => if is_space a then EmptyString else String a EmptyString
      | r => String a r
      end
  end.

Definition strip (s : string) : string := rstrip (lstrip s).

(** Number of occurrences of a character. *)
Fixpoint count (c : ascii) (s : string) : nat :=
  match s with
  | EmptyString => 0
  | String a s' => (if Ascii.eqb a c then 1 else 0) + count c s'
  end.

End Str.

(** ** The module-level tables *)

(** A Python dict literal [{k1: v1, k2: v2, ...}] is evaluated left to
    right, each pair stored in turn: a repeated key keeps its last
    value. *)
Definition dict_literal (items : list (string * string)) : gmap string string :=
  fold_left (fun d kv => <[kv.1 := kv.2]> d) items ∅.

Definition SCHEMA_items : list (string * string) :=
  [ ("albums",
      "name       text primary key," +:+
      "url        text," +:+
      "host       text," +:+
      "ready      integer," +:+
      "pending    integer," +:+
      "filesize   integer," +:+
      "path       text," +:+
      "created    integer," +:+
      "modified   integer," +:+
      "accessed   integer," +:+
      "count      integer," +:+
      "zip        text," +:+
      "views      integer," +:+
      "metadata   text");
    ("medias",
      "albumid    integer," +:+
      "i_index    integer," +:+
      "url        text," +:+
      "downloaded integer," +:+
      "saveas     text," +:+
      "type       text," +:+
      "path       text," +:+
      "width      integer," +:+
      "height     integer," +:+
      "filesize   integer," +:+
      "thumb      text," +:+
      "t_width    integer," +:+
      "t_height   integer," +:+
      "metadata   text," +:+
      "foreign key(albumid) references albums(rowid)," +:+
      "primary key(albumid, i_index)");
    ("urls",
      "albumid  integer," +:+
      "i_index  integer," +:+
      "url      text," +:+
      "saveas   text," +:+
      "type     text," +:+
      "metadata text," +:+
      "added    integer");
    ("metadata",
      "albumid integer," +:+
      "key     text," +:+
      "value   text," +:+
      "foreign key(albumid) references albums(rowid)," +:+
      "primary key(albumid, key)");
    ("sites",
      "host      text primary key," +:+
      "available integer," +:+
      "message   text");
    ("config",
      "key   text primary key," +:+
      "value text") ].

Definition SCHEMA : gmap string string := dict_literal SCHEMA_items.

Definition INDICES_items : list (string * string) :=
  [ ("albums", "ready");
    ("albums", "host");
    ("albums", "created");
    ("albums", "accessed");
    ("albums", "views");
    ("medias", "albumid");
    ("medias", "status");
    ("medias", "path");
    ("medias", "url");
    ("config", "key") ].

Definition INDICES : gmap string string := dict_literal INDICES_items.

(** An order in which a loop over a dict may meet its pairs: each key
    once, with its value, in any order. *)
Definition dict_order (d : gmap string string) (l : list (string * string))
  : Prop :=
  l ≡ₚ map_to_list d.

(** The pairs left in [INDICES], in the order in which their keys first
    appear in the source text: one of the orders a run may take, as
    [SCHEMA_items] is for [SCHEMA]. *)
Definition INDICES_kept : list (string * string) :=
  [("albums", "views"); ("medias", "url"); ("config", "key")].

(** ** Values, exceptions, the sqlite3 connection *)

Inductive value : Type :=
| VNone
| VInt (n : Z)
| VText (s : string).

(** The exceptions that reach this module: [IndexError] from a list or
    tuple index, the plain [Exception] that [select_one] raises itself,
    and whatever the sqlite3 connection raises (its class name and
    message). *)
Inductive exn : Type :=
| IndexError (msg : string)
| TypeError (msg : string)
| PyException (msg : string)
| SqliteError (cls msg : string).

Definition row : Type := list value.

(** What [cursor.execute] leaves in the cursor: the rows still to be
    fetched and [lastrowid]. *)
Record cursor : Type := mkCursor {
  pending : list row;
  lastrowid : option Z
}.

(** [cursor.fetchone()] seen as a pure read of the first pending row;
    [None] when there is none. No method of [DB] fetches twice. *)
Definition fetchone (cur : cursor) : option row := head (pending cur).

(** The two operations of a sqlite3 connection that [DB] calls. The
    statement text and the bound parameters go to [conn_execute]
    unchanged; [conn_commit] either succeeds or raises, and may change
    the connection either way. *)
Class Engine (conn : Type) : Type := {
  conn_execute : string → list value → conn → (exn + cursor) * conn;
  conn_commit : conn → option exn * conn
}.

(** One entry per call made on the connection, in order (kept for
    reasoning only: the class itself stores no such list). *)
Inductive call : Type :=
| CallExecute (query : string) (params : list value)
| CallCommit (ok : bool).

Definition is_commit_ok (c : call) : bool :=
  match c with CallCommit true => true | _ => false end.

Inductive stream : Type := Stderr | Sink.

(** The state of a [DB] object and of what it writes to. *)
Record DB (conn : Type) : Type := mkDB {
  db_conn : conn;
  logger : stream;
  stderr_lines : list string;
  sink_lines : list string;
  now : string;          (* strftime('[%Y-%m-%dT%H:%M:%SZ]', gmtime()) *)
  slept_ms : nat;        (* total time asked of sleep(), in ms *)
  history : list call
}.
Arguments mkDB {conn}.
Arguments db_conn {conn}.
Arguments logger {conn}.
Arguments stderr_lines {conn}.
Arguments sink_lines {conn}.
Arguments now {conn}.
Arguments slept_ms {conn}.
Arguments history {conn}.

(** A call either returns, raises, or is still looping when the fuel of
    the model runs out (only [commit] loops without a bound). *)
Inductive outcome (A : Type) : Type :=
| Return (a : A)
| Raise (e : exn)
| OutOfFuel.
Arguments Return {A}.
Arguments Raise {A}.
Arguments OutOfFuel {A}.

Definition M (S A : Type) : Type := S → outcome A * S.

Global Instance M_ret {S} : MRet (M S) := λ A a s, (Return a, s).
Global Instance M_bind {S} : MBind (M S) := λ A B f m s,
  match m s with
  | (Return a, s') => f a s'
  | (Raise e, s') => (Raise e, s')
  | (OutOfFuel, s') => (OutOfFuel, s')
  end.

Definition raise {S A} (e : exn) : M S A := λ s, (Raise e, s).

Definition of_sum {A} (r : exn + A) : outcome A :=
  match r with inl e => Raise e | inr a => Return a end.

(** ** The schema compiler, as pure functions *)

Definition NL : string := String Str.nl EmptyString.
Definition T2 : string := String Str.tab (String Str.tab EmptyString).
Definition T3 : string := String Str.tab T2.
Definition T4 : string := String Str.tab T3.

(** State of the first loop of [create_table]. *)
Record scan : Type := mkScan {
  hit_keys : bool;
  rows : list string;
  keys : list string
}.

Definition is_key_word (w : string) : bool :=
  bool_decide (w = "primary") || bool_decide (w = "foreign").

(** One turn of [for row in schema.split(',')]. [fields[0]] is an index
    into the list [row.split(' ')] and is written as one. *)
Definition scan_row (st : scan) (row : string) : exn + scan :=
  let fields := Str.split " " row in
  match fields !! 0 with
  | None => inl (IndexError "list index out of range")
  | Some f0 =>
      let hit := if is_key_word (Str.lower f0) then true else hit_keys st in
      if hit then
        inr (mkScan hit (rows st) (keys st ++ [row]))
      else
        inr (mkScan hit
               (rows st ++
                  [Str.rjust 16 f0 +:+ " " +:+ Str.strip (Str.join " " (drop 1 fields))])
               (keys st))
  end.

Fixpoint scan_rows (st : scan) (l : list string) : exn + scan :=
  match l with
  | [] => inr st
  | row :: l' =>
      match scan_row st row with
      | inl e => inl e
      | inr st' => scan_rows st' l'
      end
  end.

Definition scan_schema (schema : string) : exn + scan :=
  scan_rows (mkScan false [] []) (Str.split "," schema).

(** ['(' in k and ')' not in k]. *)
Definition open_paren (k : string) : bool :=
  Str.contains "(" k && negb (Str.contains ")" k).

(** The second loop of [create_table]:
<<
    i = 0
    while i < len(keys):
        if '(' in keys[i] and ')' not in keys[i]:
            keys[i] = '%s,%s' % (keys[i], keys.pop(i+1))
        else:
            i += 1
>>
    [keys.pop(i+1)] raises [IndexError] when [i+1] is not an index of
    [keys]; it is evaluated before the assignment. *)
Fixpoint rejoin_loop (fuel : nat) (keys : list string) (i : nat)
  : outcome (list string) :=
  match fuel with
  | O => OutOfFuel
  | S fuel' =>
      if decide (i < length keys) then
        match keys !! i with
        | None => Raise (IndexError "list index out of range")
        | Some k =>
            if open_paren k then
              match keys !! (i + 1) with
              | None => Raise (IndexError "pop index out of range")
              | Some nxt =>
                  rejoin_loop fuel'
                    (<[i := k +:+ "," +:+ nxt]> (delete (i + 1) keys)) i
              end
            else rejoin_loop fuel' keys (i + 1)
        end
      else Return keys
  end.

(** Every turn either advances [i] or shortens [keys], so
    [len(keys) + 1] turns are enough (see [rejoin_loop_fuel]). *)
Definition rejoin (keys : list string) : outcome (list string) :=
  rejoin_loop (S (length keys)) keys 0.

Definition create_table_text (table_name : string) (rows keys : list string)
  : string :=
  let query := "create table if not exists " +:+ table_name in
  query +:+ "(" +:+ NL +:+ Str.join ("," +:+ NL) rows
        +:+ (if decide (0 < length keys) then "," else "")
        +:+ NL +:+ Str.join ("," +:+ NL) keys +:+ ")".

(** The statement [create_table] hands to the cursor, or the exception
    raised before it gets that far. *)
Definition create_table_query (table_name schema : string) : outcome string :=
  match scan_schema schema with
  | inl e => Raise e
  | inr st =>
      match rejoin (keys st) with
      | Return ks => Return (create_table_text table_name (rows st) ks)
      | Raise e => Raise e
      | OutOfFuel => OutOfFuel
      end
  end.

Fixpoint replace_char (a b : ascii) (s : string) : string :=
  match s with
  | EmptyString => EmptyString
  | String c s' => String (if Ascii.eqb c a then b else c) (replace_char a b s')
  end.

Definition index_name (index key : string) : string :=
  index +:+ "_" +:+ replace_char "," "_" key.

Definition create_index_query (name index key : string) : string :=
  NL +:+ T3 +:+ "create index " +:+ NL +:+
  T4 +:+ "if not exists " +:+ NL +:+
  T4 +:+ name +:+ " on " +:+ index +:+ "(" +:+ key +:+ ")" +:+ NL +:+ T2.

Definition insert_questions (values : list value) : string :=
  Str.join "," (replicate (length values) "?").

Definition insert_query (table : string) (values : list value) : string :=
  NL +:+ T3 +:+ "insert into " +:+ NL +:+
  T4 +:+ table +:+ " " +:+ NL +:+
  T4 +:+ "values (" +:+ insert_questions values +:+ ")" +:+ NL +:+ T2.

Definition select_query (what table where_ : string) : string :=
  let query :=
    NL +:+ T3 +:+ "select" +:+ NL +:+
    T4 +:+ what +:+ NL +:+
    T4 +:+ "FROM" +:+ NL +:+
    T4 +:+ table +:+ NL +:+ T2 in
  if bool_decide (where_ ≠ "") then
    query +:+ NL +:+ T4 +:+ "WHERE " +:+ where_ +:+ NL +:+ T3
  else query.

Definition delete_query (table where_ : string) : string :=
  NL +:+ T3 +:+ "delete from " +:+ table +:+ NL +:+
  T4 +:+ "where " +:+ where_ +:+ NL +:+ T3.

Definition update_query (table changes where_ : string) : string :=
  NL +:+ T3 +:+ "update " +:+ table +:+ NL +:+
  T4 +:+ "set " +:+ changes +:+ NL +:+
  T4 +:+ "where " +:+ where_ +:+ NL +:+ T2.

Definition get_config_prefix : string :=
  NL +:+ T3 +:+ "select value" +:+ NL +:+
  T4 +:+ "from config" +:+ NL +:+
  T4 +:+ "where key = " +:+ String Str.dquote EmptyString.

Definition get_config_suffix : string :=
  String Str.dquote EmptyString +:+ NL +:+ T2.

Definition get_config_query (key : string) : string :=
  get_config_prefix +:+ key +:+ get_config_suffix.

Definition set_config_query : string :=
  NL +:+ T3 +:+ "insert or replace into" +:+ NL +:+
  T4 +:+ "config (key, value)" +:+ NL +:+
  T4 +:+ "values (?, ?)" +:+ NL +:+ T2.

(** ** The class [DB] *)

Section DBClass.

Context {conn : Type} `{!Engine conn}.

Abbreviation MDB := (M (DB conn)).

(** [stream.write(line)] *)
Definition write (st : stream) (line : string) : MDB unit := λ db,
  (Return (),
   match st with
   | Stderr =>
       mkDB (db_conn db) (logger db) (stderr_lines db ++ [line])
            (sink_lines db) (now db) (slept_ms db) (history db)
   | Sink =>
       mkDB (db_conn db) (logger db) (stderr_lines db)
            (sink_lines db ++ [line]) (now db) (slept_ms db) (history db)
   end).

Definition debug_line (tstamp text : string) : string :=
  tstamp +:+ " DB: " +:+ text +:+ NL.

Definition debug (text : string) : MDB unit := λ db,
  let line := debug_line (now db) text in
  (write (logger db) line ;;
   match logger db with
   | Stderr => mret ()
   | Sink => write Stderr line
   end) db.

(** [sleep(ms / 1000.0)] *)
Definition sleep (ms : nat) : MDB unit := λ db,
  (Return (),
   mkDB (db_conn db) (logger db) (stderr_lines db) (sink_lines db)
        (now db) (slept_ms db + ms) (history db)).

(** [self.conn.cursor().execute(query, params)] *)
Definition execute (query : string) (params : list value) : MDB cursor := λ db,
  let '(r, c) := conn_execute query params (db_conn db) in
  let db' :=
    mkDB c (logger db) (stderr_lines db) (sink_lines db) (now db)
         (slept_ms db) (history db ++ [CallExecute query params]) in
  match r with
  | inl e => (Raise e, db')
  | inr cur => (Return cur, db')
  end.

(** [self.conn.commit()] inside [try: ... except:]: the exception, if
    any, is a value. *)
Definition try_conn_commit : MDB (option exn) := λ db,
  let '(r, c) := conn_commit (db_conn db) in
  (Return r,
   mkDB c (logger db) (stderr_lines db) (sink_lines db) (now db)
        (slept_ms db) (history db ++ [CallCommit (bool_decide (r = None))])).

(** [commit]: [while True] with a bare [except:]. *)
Fixpoint commit (fuel : nat) : MDB unit :=
  match fuel with
  | O => λ db, (OutOfFuel, db)
  | S fuel' =>
      r ← try_conn_commit;
      match r with
      | None => mret ()
      | Some _ =>
          debug "failed to commit, retrying..." ;;
          sleep 100 ;;
          commit fuel'
      end
  end.

Definition create_table (fuel : nat) (table_name schema : string) : MDB unit :=
  query ← (λ db, (create_table_query table_name schema, db));
  execute query [] ;;
  commit fuel.

(** [name=None] is [None] here, an explicit name is [Some name]. *)
Definition create_index (fuel : nat) (index key : string) (name : option string)
  : MDB unit :=
  let name := default (index_name index key) name in
  execute (create_index_query name index key) [] ;;
  commit fuel.

Definition insert (table : string) (values : list value) : MDB (option Z) :=
  result ← execute (insert_query table values) values;
  mret (lastrowid result).

Definition select (what table where_ : string) (values : list value)
  : MDB cursor :=
  execute (select_query what table where_) values.

(** [t[0]] on a fetched row. *)
Definition first_column (r : row) : MDB value :=
  match r !! 0 with
  | Some v => mret v
  | None => raise (IndexError "tuple index out of range")
  end.

Definition count (table where_ : string) (values : list value) : MDB value :=
  cur ← select "count(*)" table where_ values;
  match fetchone cur with
  | None => raise (TypeError "'NoneType' object has no attribute '__getitem__'")
  | Some result => first_column result
  end.

Definition select_one (what table where_ : string) (values : list value)
  : MDB value :=
  cur ← select what table where_ values;
  match fetchone cur with
  | None => raise (PyException "no rows returned")
  | Some ex => first_column ex
  end.

Definition delete_ (table where_ : string) (values : list value) : MDB unit :=
  execute (delete_query table where_) values ;; mret ().

Definition update (table changes where_ : string) (values : list value)
  : MDB unit :=
  execute (update_query table changes where_) values ;; mret ().

(** Python's [None] is [VNone], whether it comes from [return None] or
    from a stored NULL. *)
Definition get_config (key : string) : MDB value :=
  execur ← execute (get_config_query key) [];
  match fetchone execur with
  | None => mret VNone
  | Some result => first_column result
  end.

(** The [fetchone()] after the upsert reads nothing and its result is
    dropped. *)
Definition set_config (fuel : nat) (key : string) (v : value) : MDB unit :=
  execute set_config_query [VText key; v] ;;
  commit fuel.

Fixpoint for_each {A} (l : list A) (body : A → MDB unit) : MDB unit :=
  match l with
  | [] => mret ()
  | x :: l' => body x ;; for_each l' body
  end.

(** The body of [__init__] on a run in which [sqlite3.connect(DB_FILE)]
    returns: the object already holds the connection it returned when
    the first line is logged, which changes nothing, since [debug] does
    not touch the connection; a run in which [connect] raises is not
    described. The language does not fix the order in which
    [for table in SCHEMA] walks a dict: [tables] and [indices] are the
    pairs of [SCHEMA] and of [INDICES] in the order the two loops meet
    them (see [dict_order]). *)
Definition init_body (fuel : nat) (DB_FILE : string) (file_exists : bool)
  (tables indices : list (string * string)) : MDB unit :=
  (if file_exists
   then debug ("__init__: connecting to database file: " +:+ DB_FILE)
   else debug ("__init__: database file (" +:+ DB_FILE +:+
               ") not found, creating...")) ;;
  for_each tables
    (λ kv, create_table fuel kv.1 kv.2) ;;
  for_each indices
    (λ kv, create_index fuel kv.1 kv.2 None) ;;
  commit fuel.

(** [DB()] once [sqlite3.connect(DB_FILE)] has returned: [c] is the
    connection it returned, [tstamp] what the clock reads. *)
Definition __init__ (fuel : nat) (DB_FILE : string) (file_exists : bool)
  (tables indices : list (string * string)) (c : conn) (tstamp : string)
  : outcome unit * DB conn :=
  init_body fuel DB_FILE file_exists tables indices
    (mkDB c Stderr [] [] tstamp 0 []).

End DBClass.

(** ** Concrete connections *)

(** A connection whose statements all succeed with an empty cursor and
    whose successive [commit()] calls fail or succeed as scripted: the
    head of the list is the next outcome, an exhausted script means
    success. *)
Module Scripted.

Definition conn : Type := list (option exn).

Definition execute (q : string) (params : list value) (c : conn)
  : (exn + cursor) * conn :=
  (inr (mkCursor [] None), c).

Definition commit (c : conn) : option exn * conn :=
  match c with
  | [] => (None, [])
  | r :: c' => (r, c')
  end.

#[global] Instance engine : Engine conn :=
  {| conn_execute := execute; conn_commit := commit |}.

End Scripted.

Definition commits_ok {conn} (db : DB conn) : nat :=
  length (filter (λ c, is_commit_ok c = true) (history db)).

Definition executed {conn} (db : DB conn) : list string :=
  omap (λ c, match c with CallExecute q _ => Some q | _ => None end) (history db).

(** A commit attempt that raised. *)
Definition is_failed_commit (c : call) : bool :=
  match c with CallCommit false => true | _ => false end.

(** The calls of a trace without the commit attempts that raised: the
    statements sent and the commits that went through, in order. *)
Definition effective (h : list call) : list call :=
  filter (λ c, is_failed_commit c = false) h.

(** A statement sent without parameters and committed. *)
Definition committed_statement (q : string) : list call :=
  [CallExecute q []; CallCommit true].

(** The rejoin loop read as a recursion on the fragments still to come:
    [k] is the fragment under the index, [rest] what follows it. Used to
    reason about [rejoin_loop] (see [rejoin_loop_from]). *)
Fixpoint rejoin_from (k : string) (rest : list string) : exn + list string :=
  if open_paren k then
    match rest with
    | [] => inl (IndexError "pop index out of range")
    | nxt :: rest' => rejoin_from (k +:+ "," +:+ nxt) rest'
    end
  else
    match rest with
    | [] => inr [k]
    | nxt :: rest' =>
        match rejoin_from nxt rest' with
        | inl e => inl e
        | inr ks => inr (k :: ks)
        end
    end.

Definition medias_schema : string :=
  "albumid    integer," +:+
  "i_index    integer," +:+
  "url        text," +:+
  "downloaded integer," +:+
  "saveas     text," +:+
  "type       text," +:+
  "path       text," +:+
  "width      integer," +:+
  "height     integer," +:+
  "filesize   integer," +:+
  "thumb      text," +:+
  "t_width    integer," +:+
  "t_height   integer," +:+
  "metadata   text," +:+
  "foreign key(albumid) references albums(rowid)," +:+
  "primary key(albumid, i_index)".

Section CommitStates.

Context {conn : Type} `{!Engine conn}.

(** The object after one failed attempt: the connection as the failed
    [commit()] left it, one more log line, 100 ms more asleep. *)
Definition retry_state (c1 : conn) (db : DB conn) : DB conn :=
  let line := debug_line (now db) "failed to commit, retrying..." in
  mkDB c1 (logger db) (stderr_lines db ++ [line])
       (match logger db with
        | Stderr => sink_lines db
        | Sink => sink_lines db ++ [line]
        end)
       (now db) (slept_ms db + 100) (history db ++ [CallCommit false]).

(** The object after the attempt that succeeds. *)
Definition commit_state (c1 : conn) (db : DB conn) : DB conn :=
  mkDB c1 (logger db) (stderr_lines db) (sink_lines db) (now db)
       (slept_ms db) (history db ++ [CallCommit true]).

(** The next [n] attempts on connection [c] raise, whatever they
    raise, and the one after succeeds, leaving [c']. *)
Inductive fails_then_commits : nat → conn → conn → Prop :=
| ftc_commits c c' :
    conn_commit c = (None, c') → fails_then_commits 0 c c'
| ftc_fails n c e c1 c' :
    conn_commit c = (Some e, c1) →
    fails_then_commits n c1 c' →
    fails_then_commits (S n) c c'.

(** The next [n] attempts on connection [c] raise, whatever they
    raise, leaving [c']; nothing is asked of the attempts after them. *)
Inductive keeps_failing : nat → conn → conn → Prop :=
| kf_none c :
    keeps_failing 0 c c
| kf_fails n c e c1 c' :
    conn_commit c = (Some e, c1) →
    keeps_failing n c1 c' →
    keeps_failing (S n) c c'.

End CommitStates.

Definition io_error : exn := SqliteError "OperationalError" "disk I/O error".
Definition locked_error : exn := SqliteError "OperationalError" "database is locked".

(** A connection whose [commit()] raises at every attempt, as on a
    database another process keeps locked; the connection counts the
    attempts made on it. Its statements succeed with an empty cursor. *)
Module Locked.

Inductive conn : Type := attempts (n : nat).

Definition execute (q : string) (params : list value) (c : conn)
  : (exn + cursor) * conn :=
  (inr (mkCursor [] None), c).

Definition commit (c : conn) : option exn * conn :=
  match c with attempts n => (Some locked_error, attempts (S n)) end.

#[global] Instance engine : Engine conn :=
  {| conn_execute := execute; conn_commit := commit |}.

End Locked.

(** The statement [create_table] executes for a declared table. *)
Definition table_statement (kv : string * string) : string :=
  match create_table_query kv.1 kv.2 with
  | Return q => q
  | _ => ""
  end.

Definition index_statement (kv : string * string) : string :=
  create_index_query (index_name kv.1 kv.2) kv.1 kv.2.

(** A connection that answers every statement with the same rows. *)
Module Canned.

Definition conn : Type := list row.

Definition execute (q : string) (params : list value) (c : conn)
  : (exn + cursor) * conn :=
  (inr (mkCursor c None), c).

Definition commit (c : conn) : option exn * conn := (None, c).

#[global] Instance engine : Engine conn :=
  {| conn_execute := execute; conn_commit := commit |}.

End Canned.

(** How the engine reads a token opened by a double quote, from the
    character after the opening quote: up to the next double quote that
    is not doubled, a doubled one standing for one quote character.
    [None] when the token is not closed before the text ends. *)
Fixpoint dq_token (s : string) : option (string * string) :=
  match s with
  | EmptyString => None
  | String a s' =>
      if Ascii.eqb a Str.dquote then
        match s' with
        | String b s'' =>
            if Ascii.eqb b Str.dquote then
              match dq_token s'' with
              | Some (t, r) => Some (String Str.dquote t, r)
              | None => None
              end
            else Some (EmptyString, s')
        | EmptyString => Some (EmptyString, EmptyString)
        end
      else
        match dq_token s' with
        | Some (t, r) => Some (String a t, r)
        | None => None
        end
  end.

(** A text with each of its double quotes doubled: the spelling under
    which the engine reads a double-quoted token as that text. *)
Fixpoint double_quotes (t : string) : string :=
  match t with
  | EmptyString => EmptyString
  | String a t' =>
      if Ascii.eqb a Str.dquote
      then String Str.dquote (String Str.dquote (double_quotes t'))
      else String a (double_quotes t')
  end.

Fixpoint strip_prefix (p s : string) : option string :=
  match p, s with
  | EmptyString, _ => Some s
  | String a p', String b s' =>
      if Ascii.eqb a b then strip_prefix p' s' else None
  | String _ _, EmptyString => None
  end.

(** The operand the statement of [get_config] compares the [key] column
    with, as the engine reads it, and the text left after it. *)
Definition where_operand (q : string) : option (string * string) :=
  match strip_prefix get_config_prefix q with
  | Some rest => dq_token rest
  | None => None
  end.

(** The key made of one double-quote character. *)
Definition quote_key : string := String Str.dquote EmptyString.

(** The key of four characters: an [a], two double quotes, a [b]. *)
Definition doubled_quote_key : string :=
  "a" +:+ quote_key +:+ quote_key +:+ "b".

(** The key of three characters: an [a], one double quote, a [b]. *)
Definition single_quote_key : string :=
  "a" +:+ quote_key +:+ "b".

(** Only blanks, possibly none. *)
Fixpoint blank (s : string) : bool :=
  match s with
  | EmptyString => true
  | String a s' => Str.is_space a && blank s'
  end.

(** A model of the engine on the table [config (key text primary key,
    value text)] for the two statements of the config store. The
    connection is the list of its rows. The upsert replaces the row of
    the bound key. The select reads its operand with [dq_token]: an
    unclosed token is rejected; a closed one followed by blanks only,
    and that names no column, selects the rows whose key is that text.
    Every other statement is accepted and changes nothing, and a select
    of another shape is refused as outside the model. *)
Module ConfigDb.

Definition conn : Type := list (string * value).

Definition upsert (k : string) (v : value) (c : list (string * value))
  : list (string * value) :=
  filter (λ kv, kv.1 ≠ k) c ++ [(k, v)].

Definition names_column (t : string) : bool :=
  bool_decide (Str.lower t ∈ ["key"; "value"; "rowid"; "oid"; "_rowid_"]).

Definition lookup_rows (k : string) (c : list (string * value)) : list row :=
  (λ kv, [kv.2]) <$> filter (λ kv, kv.1 = k) c.

Definition execute (q : string) (params : list value) (c : conn)
  : (exn + cursor) * conn :=
  if bool_decide (q = set_config_query) then
    match params with
    | [VText k; v] => (inr (mkCursor [] None), upsert k v c)
    | _ => (inl (SqliteError "ProgrammingError"
                   "Incorrect number of bindings supplied"), c)
    end
  else
    match strip_prefix get_config_prefix q with
    | None => (inr (mkCursor [] None), c)
    | Some rest =>
        match dq_token rest with
        | None => (inl (SqliteError "OperationalError" "unrecognized token"), c)
        | Some (t, after) =>
            if blank after && negb (names_column t)
            then (inr (mkCursor (lookup_rows t c) None), c)
            else (inl (SqliteError "NotSupportedError" "outside the model"), c)
        end
    end.

Definition commit (c : conn) : option exn * conn := (None, c).

#[global] Instance engine : Engine conn :=
  {| conn_execute := execute; conn_commit := commit |}.

End ConfigDb.

(** The blank-separated words of a statement, as the engine's tokenizer
    separates them ([s.split()] in Python terms). *)
Fixpoint words (s : string) : list string :=
  match s with
  | EmptyString => []
  | String a s' =>
      if Str.is_space a then words s'
      else
        match s' with
        | EmptyString => [String a EmptyString]
        | String b _ =>
            if Str.is_space b then String a EmptyString :: words s'
            else
              match words s' with
              | w :: ws => String a w :: ws
              | [] => [String a EmptyString]
              end
        end
  end.


Definition placeholders (n : nat) : string :=
  "(" +:+ Str.join "," (replicate n "?") +:+ ")".

(** The first character of a bare name: a letter or an underscore. *)
Definition ident_start (a : ascii) : bool :=
  let n := nat_of_ascii a in
  ((65 <=? n)%nat && (n <=? 90)%nat)
  || ((97 <=? n)%nat && (n <=? 122)%nat)
  || (n =? 95)%nat.

(** A character of a bare name: a letter, an underscore or a digit. *)
Definition ident_char (a : ascii) : bool :=
  let n := nat_of_ascii a in
  ident_start a || ((48 <=? n)%nat && (n <=? 57)%nat).

Fixpoint ident_chars (s : string) : bool :=
  match s with
  | EmptyString => true
  | String a s' => ident_char a && ident_chars s'
  end.

(** A bare name, as the declared tables and columns have: a letter or
    an underscore, then letters, underscores and digits, so no blank,
    no quote and no parenthesis. *)
Definition identifier (s : string) : bool :=
  match s with
  | EmptyString => false
  | String a s' => ident_start a && ident_chars s'
  end.

(** The keywords of the engine's SQL, in lower case, but for [key],
    which the engine takes as a name and the declared tables use as
    one. Some of the others can be names as well; none is taken as one
    here. *)
Definition sql_keywords : list string :=
  [ "abort"; "action"; "add"; "after"; "all"; "alter"; "always"; "analyze";
    "and"; "as"; "asc"; "attach"; "autoincrement"; "before"; "begin";
    "between"; "by"; "cascade"; "case"; "cast"; "check"; "collate"; "column";
    "commit"; "conflict"; "constraint"; "create"; "cross"; "current";
    "current_date"; "current_time"; "current_timestamp"; "database";
    "default"; "deferrable"; "deferred"; "delete"; "desc"; "detach";
    "distinct"; "do"; "drop"; "each"; "else"; "end"; "escape"; "except";
    "exclude"; "exclusive"; "exists"; "explain"; "fail"; "false"; "filter";
    "first"; "following"; "for"; "foreign"; "from"; "full"; "generated";
    "glob"; "group"; "groups"; "having"; "if"; "ignore"; "immediate"; "in";
    "index"; "indexed"; "initially"; "inner"; "insert"; "instead";
    "intersect"; "into"; "is"; "isnull"; "join"; "last"; "left"; "like";
    "limit"; "match"; "materialized"; "natural"; "no"; "not"; "nothing";
    "notnull"; "null"; "nulls"; "of"; "offset"; "on"; "or"; "order";
    "others"; "outer"; "over"; "partition"; "plan"; "pragma"; "preceding";
    "primary"; "query"; "raise"; "range"; "recursive"; "references";
    "regexp"; "reindex"; "release"; "rename"; "replace"; "restrict";
    "returning"; "right"; "rollback"; "row"; "rows"; "savepoint"; "select";
    "set"; "table"; "temp"; "temporary"; "then"; "ties"; "to";
    "transaction"; "trigger"; "true"; "unbounded"; "union"; "unique";
    "update"; "using"; "vacuum"; "values"; "view"; "virtual"; "when";
    "where"; "window"; "with"; "without" ].

(** A bare name that is no keyword. *)
Definition plain_name (s : string) : bool :=
  identifier s && negb (bool_decide (Str.lower s ∈ sql_keywords)).




(** A word of a statement cut into a name and the parenthesised list
    it carries, if any: [t] or [t(c1,...,ck)] for the table word of an
    insert, [c] or [f(arg)] for the projection of a select. *)
Definition word_with_list (w : string) : option (string * option (list string)) :=
  match Str.split "(" w with
  | [name] => Some (name, None)
  | [name; rest] =>
      match Str.split ")" rest with
      | [inside; EmptyString] => Some (name, Some (Str.split "," inside))
      | _ => None
      end
  | _ => None
  end.

(** The row an insert with a column list stores: each column of the
    table takes the value bound at the place of its name in the list,
    and NULL when the list leaves it out. *)
Definition fill_row (cols listed : list string) (params : list value) : row :=
  (λ col, default VNone
            (list_find (λ x, x = col) listed ≫= λ ix, params !! ix.1)) <$> cols.

(** A model of an engine with tables: a table, kept under its name in
    lower case, is its columns and its rows, and values are stored as
    they are bound. The table of an insert is a plain name, read
    without regard to case. An insert that names no column is accepted
    when it supplies one value per column of the table. An insert whose
    table word carries a column list is accepted when the listed
    columns are distinct columns of the table and it supplies one value
    per listed column; the columns left out are stored as NULL. An
    insert into something else than a plain name, or with a column list
    the model does not read, is refused as outside the model. A
    statement that is no such insert is accepted and changes nothing. *)
Module Tables.

Definition conn : Type := gmap string (list string * list row).

Definition unsupported : exn := SqliteError "NotSupportedError" "outside the model".

Definition execute (q : string) (params : list value)
  (c : gmap string (list string * list row))
  : (exn + cursor) * gmap string (list string * list row) :=
  match words q with
  | [w1; w2; tw; w3; ph] =>
      if bool_decide (w1 = "insert") && bool_decide (w2 = "into")
         && bool_decide (w3 = "values")
      then
        match word_with_list tw with
        | None => (inl unsupported, c)
        | Some (t, listed) =>
            if negb (plain_name t) then (inl unsupported, c)
            else
            match c !! Str.lower t with
            | Some (cols, rws) =>
                match listed with
                | None =>
                    if bool_decide (ph = placeholders (length cols))
                       && bool_decide (length params = length cols)
                    then (inr (mkCursor [] (Some (Z.of_nat (S (length rws))))),
                          <[Str.lower t := (cols, rws ++ [params])]> c)
                    else (inl (SqliteError "OperationalError"
                                 "table has another number of columns than values supplied"),
                          c)
                | Some l =>
                    if bool_decide (NoDup l) && bool_decide (l ⊆ cols)
                    then
                      if bool_decide (ph = placeholders (length l))
                         && bool_decide (length params = length l)
                      then (inr (mkCursor [] (Some (Z.of_nat (S (length rws))))),
                            <[Str.lower t := (cols, rws ++ [fill_row cols l params])]> c)
                      else (inl (SqliteError "OperationalError"
                                   "another number of values than columns listed"),
                            c)
                    else (inl unsupported, c)
                end
            | None => (inl (SqliteError "OperationalError" "no such table"), c)
            end
        end
      else (inr (mkCursor [] None), c)
  | _ => (inr (mkCursor [] None), c)
  end.

Definition commit (c : conn) : option exn * conn := (None, c).

#[global] Instance engine : Engine conn :=
  {| conn_execute := execute; conn_commit := commit |}.





End Tables.

(** A model of the engine on one table, for the select statements of
    [DB.select]: [select <what> FROM <table>], alone or followed by
    [WHERE <column> = ?] with one bound value. Table and columns are
    plain names, compared without regard to case. The rows selected
    are all rows, or those whose cell in the column equals the bound
    value, NULL equal to nothing. A projection that is a column of the table yields one row
    per selected row; "count(*)" and [max(column)] are aggregates and
    yield exactly one row, whatever is selected: the number of selected
    rows, and the largest cell of the column that is not NULL, or NULL
    when there is none (integers before texts). A comparison between
    an integer and a text, whose outcome depends on the declared type
    of the column, and every other projection are refused as outside
    the model; a text that is no such select is accepted and yields
    nothing. *)
Module Query.

Record conn : Type := mkTable {
  t_name : string;
  t_cols : list string;
  t_rows : list row
}.

Definition unsupported : exn := SqliteError "NotSupportedError" "outside the model".

Definition bindings : exn :=
  SqliteError "ProgrammingError" "Incorrect number of bindings supplied".

Definition no_such_table : exn := SqliteError "OperationalError" "no such table".

Definition same_name (a b : string) : bool :=
  bool_decide (Str.lower a = Str.lower b).

Definition column_index (cols : list string) (c : string) : option nat :=
  fst <$> list_find (λ x, same_name x c = true) cols.

(** The column a plain name stands for; a word that is no plain name
    of a column of the table is not read by the model. *)
Definition named_column (cols : list string) (c : string) : option nat :=
  if plain_name c then column_index cols c else None.

Definition cell (r : row) (k : nat) : value := default VNone (r !! k).

Definition sql_eq (a b : value) : bool :=
  match a, b with
  | VInt x, VInt y => bool_decide (x = y)
  | VText x, VText y => bool_decide (x = y)
  | _, _ => false
  end.

Definition comparable (a b : value) : bool :=
  match a, b with
  | VInt _, VText _ | VText _, VInt _ => false
  | _, _ => true
  end.

Definition value_leb (a b : value) : bool :=
  match a, b with
  | VNone, _ => true
  | _, VNone => false
  | VInt x, VInt y => bool_decide (x ≤ y)%Z
  | VInt _, VText _ => true
  | VText _, VInt _ => false
  | VText x, VText y => String.leb x y
  end.

Definition value_max (a b : value) : value :=
  if value_leb a b then b else a.

Definition max_of (l : list value) : value := foldr value_max VNone l.

(** The rows [WHERE <column> = ?] selects, the column being the
    [j]-th. *)
Definition selected (j : nat) (v : value) (rws : list row) : list row :=
  filter (λ r, sql_eq (cell r j) v = true) rws.

(** The result rows of a projection over the selected rows. *)
Definition project (cols : list string) (what : string) (sel : list row)
  : exn + list row :=
  match word_with_list what with
  | Some (c, None) =>
      match named_column cols c with
      | Some k => inr ((λ r, [cell r k]) <$> sel)
      | None => inl unsupported
      end
  | Some (f, Some [arg]) =>
      if same_name f "count" && bool_decide (arg = "*")
      then inr [[VInt (Z.of_nat (length sel))]]
      else if same_name f "max"
      then match named_column cols arg with
           | Some k => inr [[max_of ((λ r, cell r k) <$> sel)]]
           | None => inl unsupported
           end
      else inl unsupported
  | _ => inl unsupported
  end.

Definition answer (r : exn + list row) (c : conn) : (exn + cursor) * conn :=
  match r with
  | inl e => (inl e, c)
  | inr rws => (inr (mkCursor rws None), c)
  end.

Definition execute (q : string) (params : list value) (c : conn)
  : (exn + cursor) * conn :=
  match words q with
  | [w1; what; w2; t] =>
      if same_name w1 "select" && same_name w2 "from"
      then
        if negb (plain_name t) then (inl unsupported, c)
        else if same_name t (t_name c)
        then match params with
             | [] => answer (project (t_cols c) what (t_rows c)) c
             | _ => (inl bindings, c)
             end
        else (inl no_such_table, c)
      else (inr (mkCursor [] None), c)
  | [w1; what; w2; t; w3; wc; w4; w5] =>
      if same_name w1 "select" && same_name w2 "from" && same_name w3 "where"
         && bool_decide (w4 = "=") && bool_decide (w5 = "?")
      then
        if negb (plain_name t) then (inl unsupported, c)
        else if same_name t (t_name c)
        then match params, named_column (t_cols c) wc with
             | [v], Some j =>
                 if forallb (λ r, comparable (cell r j) v) (t_rows c)
                 then answer (project (t_cols c) what (selected j v (t_rows c))) c
                 else (inl unsupported, c)
             | [_], None => (inl unsupported, c)
             | _, _ => (inl bindings, c)
             end
        else (inl no_such_table, c)
      else (inr (mkCursor [] None), c)
  | _ => (inr (mkCursor [] None), c)
  end.

Definition commit (c : conn) : option exn * conn := (None, c).

#[global] Instance engine : Engine conn :=
  {| conn_execute := execute; conn_commit := commit |}.


End Query.

(** Some fragment holds a ['('] and neither it nor any fragment after it
    holds a [')']: the parenthesis is never closed. *)
Inductive dangling : list string → Prop :=
| dangling_here k rest :
    Str.contains "(" k = true →
    Forall (λ x, Str.contains ")" x = false) (k :: rest) →
    dangling (k :: rest)
| dangling_later k rest :
    dangling rest → dangling (k :: rest).

(** ** Reading aids for the schema compiler *)

(** [row.split(' ')[0]], the text before the first blank of a clause. *)
Definition first_token (row : string) : string :=
  default EmptyString (Str.split " " row !! 0).

(** The test of the first loop: the clause opens the key group. *)
Definition is_key_clause (row : string) : bool :=
  is_key_word (Str.lower (first_token row)).

(** The line [create_table] makes of a column clause. *)
Definition column_line (row : string) : string :=
  Str.rjust 16 (first_token row) +:+ " " +:+
  Str.strip (Str.join " " (drop 1 (Str.split " " row))).

(** A connection that accepts a given number of statements and then
    refuses every statement, as a full disk does; commits succeed. *)
Module Refusing.

Definition conn : Type := nat.

Definition full : exn := SqliteError "OperationalError" "database or disk is full".

Definition execute (q : string) (params : list value) (c : nat)
  : (exn + cursor) * nat :=
  match c with
  | O => (inl full, O)
  | S c' => (inr (mkCursor [] None), c')
  end.

Definition commit (c : nat) : option exn * nat := (None, c).

#[global] Instance engine : Engine conn :=
  {| conn_execute := execute; conn_commit := commit |}.

End Refusing.

(** The statements of a construction, in the order it executes them
    when its loops meet the pairs of the two dicts as [tables] and
    [indices]. *)
Definition init_statements (tables indices : list (string * string))
  : list string :=
  (table_statement <$> tables) ++ (index_statement <$> indices).

(** ** py/Httpy.py: the [between] helper *)

Fixpoint drop_chars (n : nat) (s : string) : string :=
  match n, s with
  | O, _ => s
  | S n', String _ s' => drop_chars n' s'
  | S _, EmptyString => EmptyString
  end.

Fixpoint take_chars (n : nat) (s : string) : string :=
  match n, s with
  | S n', String c s' => String c (take_chars n' s')
  | _, _ => EmptyString
  end.

(** Offset of the first occurrence of [sub] in [s]. *)
Fixpoint find_first (sub s : string) {struct s} : option nat :=
  if String.prefix sub s then Some 0
  else
    match s with
    | EmptyString => None
    | String _ s' =>
        match find_first sub s' with
        | Some k => Some (S k)
        | None => None
        end
    end.

(** [s.find(sub, start)]: a negative [start] counts from the end and is
    cut at 0; past the end nothing is found, not even the empty string;
    the answer is [-1] when there is no occurrence. *)
Definition py_find (s sub : string) (start : Z) : Z :=
  let n := Z.of_nat (String.length s) in
  let st := if (start <? 0)%Z then Z.max 0 (start + n) else start in
  if (n <? st)%Z then (-1)%Z
  else
    match find_first sub (drop_chars (Z.to_nat st) s) with
    | Some k => (st + Z.of_nat k)%Z
    | None => (-1)%Z
    end.

(** A slice bound brought into [0 .. n]. *)
Definition slice_bound (n x : Z) : Z :=
  if (x <? 0)%Z then Z.max 0 (x + n) else Z.min x n.

(** [s[i:j]] *)
Definition py_slice (s : string) (i j : Z) : string :=
  let n := Z.of_nat (String.length s) in
  let i' := slice_bound n i in
  let j' := slice_bound n j in
  take_chars (Z.to_nat (j' - i')) (drop_chars (Z.to_nat i') s).

(** The loop of [between]:
<<
    while i >= 0 and j >= 0:
        i = i + len(start)
        result.append(source[i:j])
        i = source.find(start, j + len(finish))
        j = source.find(finish, i + len(start))
>> *)
Fixpoint between_loop (fuel : nat) (source start finish : string)
  (result : list string) (i j : Z) : outcome (list string) :=
  match fuel with
  | O => OutOfFuel
  | S fuel' =>
      if ((0 <=? i) && (0 <=? j))%Z then
        let i1 := (i + Z.of_nat (String.length start))%Z in
        let result := result ++ [py_slice source i1 j] in
        let i2 := py_find source start (j + Z.of_nat (String.length finish)) in
        let j2 := py_find source finish (i2 + Z.of_nat (String.length start)) in
        between_loop fuel' source start finish result i2 j2
      else Return result
  end.

Definition between (fuel : nat) (source start finish : string)
  : outcome (list string) :=
  let i := py_find source start 0 in
  let j := py_find source finish (i + Z.of_nat (String.length start)) in
  between_loop fuel source start finish [] i j.

(** ** py/Httpy.py: the class [Httpy] *)

Module Httpy.

(** An exception raised while a request is made or read: its class and
    [str(e)]. *)
Record error : Type := mkError {
  err_class : string;
  err_msg : string
}.

(** [urllib2.Request(url, data, headers)]; a bare url given to
    [urlopen] is a request with no data and no header of the caller. *)
Record request : Type := mkRequest {
  req_url : string;
  req_data : option string;
  req_headers : gmap string string
}.

(** What [urlopen] returns: the final url, [info()], what [read()]
    gives, and what the successive [read(65536)] give (once they are
    used up a read gives the empty string). *)
Record response : Type := mkResponse {
  resp_url : string;
  resp_info : string;
  resp_read : error + string;
  resp_chunks : list (error + string)
}.

(** The opener, with its cookie jar and the network behind it, and
    [urllib.urlencode]. *)
Class World (net : Type) : Type := {
  net_open : request → net → (error + response) * net;
  urlencode : gmap string string → string
}.

(** An [Httpy] object, the lines written to its log file and the files
    it has written. *)
Record state (net : Type) : Type := mkState {
  user_agent : string;
  logfile : list string;
  web : net;
  files : gmap string string
}.
Arguments mkState {net}.
Arguments user_agent {net}.
Arguments logfile {net}.
Arguments web {net}.
Arguments files {net}.

Definition default_user_agent : string :=
  "Mozilla/5.0 (Macintosh; Intel Mac OS X 10.7; rv:19.0) Gecko/20100101 Firefox/19.0".

(** The [postdata] argument of [post], by its type. *)
Inductive postdata : Type :=
| PNone
| PDict (d : gmap string string)
| PStr (s : string)
| POther.

Section Methods.

Context {net : Type} `{!World net}.

(** [Httpy(user_agent)] *)
Definition init (ua : option string) (w : net) : state net :=
  mkState (default default_user_agent ua) [] w ∅.

Definition log (text : string) (st : state net) : state net :=
  mkState (user_agent st) (logfile st ++ ["Httpy: " +:+ text +:+ NL])
          (web st) (files st).

Definition get_headers (st : state net) : gmap string string :=
  {[ "User-agent" := user_agent st ]}.

(** [self.urlopen(req)] *)
Definition open_url (req : request) (st : state net)
  : (error + response) * state net :=
  let '(r, w) := net_open req (web st) in
  (r, mkState (user_agent st) (logfile st) w (files st)).

Definition unshorten (url : string) (st : state net) : string * state net :=
  match open_url (mkRequest url None (get_headers st)) st with
  | (inl e, st') =>
      (url, log ("unshorten(" +:+ url +:+ "): Exception " +:+ err_msg e) st')
  | (inr site, st') => (resp_url site, st')
  end.

Definition get_meta (url : string) (st : state net)
  : (error + string) * state net :=
  let '(url, st) := unshorten url st in
  match open_url (mkRequest url None (get_headers st)) st with
  | (inl e, st') =>
      (inl e, log ("get_meta(" +:+ url +:+ "): Exception " +:+ err_msg e) st')
  | (inr site, st') => (inr (resp_info site), st')
  end.

Definition validate (url : string) (st : state net) : bool * state net :=
  match open_url (mkRequest url None ∅) st with
  | (inl _, st') => (false, st')
  | (inr _, st') => (true, st')
  end.

(** [dict(headers.items() + self.get_headers().items())] *)
Definition merge_headers (headers : gmap string string) (st : state net)
  : gmap string string :=
  dict_literal (map_to_list headers ++ map_to_list (get_headers st)).

Definition get (url : string) (headers : gmap string string) (st : state net)
  : (error + string) * state net :=
  let headers := merge_headers headers st in
  match open_url (mkRequest url None headers) st with
  | (inl e, st') =>
      (inl e,
       log ("get(" +:+ url +:+ "): Exception while creating request: "
            +:+ err_msg e +:+ NL) st')
  | (inr handle, st') =>
      match resp_read handle with
      | inl e =>
          (inl e,
           log ("get(" +:+ url +:+ "): Exception while reading response: "
                +:+ err_msg e +:+ NL) st')
      | inr result => (inr result, st')
      end
  end.

(** [encoded_data] stays unbound when [postdata] is neither [None], a
    dict nor a [str]; its first use, inside the [try], then raises. *)
Definition encode_postdata (pd : postdata) : option string :=
  match pd with
  | PNone => Some EmptyString
  | PDict d => Some (urlencode d)
  | PStr s => Some s
  | POther => None
  end.

Definition unbound_encoded_data : error :=
  mkError "UnboundLocalError"
          "local variable 'encoded_data' referenced before assignment".

Definition post (url : string) (pd : postdata) (headers : gmap string string)
  (st : state net) : (error + string) * state net :=
  let encoded_data := encode_postdata pd in
  let headers := merge_headers headers st in
  let failed (e : error) (st' : state net) :=
    (inl e, log ("post(" +:+ url +:+ "): Exception: " +:+ err_msg e +:+ NL) st') in
  match encoded_data with
  | None => failed unbound_encoded_data st
  | Some data =>
      match open_url (mkRequest url (Some data) headers) st with
      | (inl e, st') => failed e st'
      | (inr handle, st') =>
          match resp_read handle with
          | inl e => failed e st'
          | inr result => (inr result, st')
          end
      end
  end.

(** The loop of [download] over the reads still to come; [written] is
    what [output.write] has been given so far. *)
Fixpoint download_loop (reads : list (error + string)) (written : string)
  : option error * string :=
  match reads with
  | [] => (None, written)
  | inl e :: _ => (Some e, written)
  | inr buf :: reads' =>
      if bool_decide (String.length buf = 0) then (None, written)
      else download_loop reads' (written +:+ buf)
  end.

(** [open(save_as, 'wb')] is taken to succeed: it leaves [save_as]
    empty before anything is requested. *)
Definition download (url save_as : string) (st : state net)
  : (error + unit) * state net :=
  let st := mkState (user_agent st) (logfile st) (web st)
                    (<[save_as := EmptyString]> (files st)) in
  match open_url (mkRequest url None (get_headers st)) st with
  | (inl e, st') => (inl e, st')
  | (inr file_on_web, st') =>
      let '(r, written) := download_loop (resp_chunks file_on_web) EmptyString in
      (match r with Some e => inl e | None => inr () end,
       mkState (user_agent st') (logfile st') (web st')
               (<[save_as := written]> (files st')))
  end.

End Methods.

(** A network that answers each url from a table and fails on the
    others; its [urlencode] joins the pairs as [k=v] with [&] and quotes
    nothing. *)
Definition site_table : Type := gmap string response.

Definition no_route : error := mkError "URLError" "no route to host".

#[global] Instance table_world : World site_table :=
  {| net_open := λ req w,
       match w !! req_url req with
       | Some r => (inr r, w)
       | None => (inl no_route, w)
       end;
     urlencode := λ d,
       Str.join "&" ((λ kv, kv.1 +:+ "=" +:+ kv.2) <$> map_to_list d) |}.

Definition sample_response : response :=
  mkResponse "http://a/f" "" (inr "abcd") [inr "ab"; inr "cd"; inr ""; inr "zz"].

Definition sample_sites : site_table := {[ "http://a/f" := sample_response ]}.

End Httpy.

(** * Properties *)

(** ** Strings *)

#[local] Arguments String.append !_ _ / : simpl nomatch.

Lemma append_nil_r (s : string) : s +:+ "" = s.
Proof. induction s as [|a s IH]; simpl; [done | by rewrite IH]. Qed.

Lemma append_assoc (a b c : string) : (a +:+ b) +:+ c = a +:+ b +:+ c.
Proof. induction a as [|x a IH]; simpl; [done | by rewrite IH]. Qed.

Lemma append_length (a b : string) :
  String.length (a +:+ b) = String.length a + String.length b.
Proof. induction a as [|x a IH]; simpl; [done | by rewrite IH]. Qed.

Lemma append_inv_head (p a b : string) : p +:+ a = p +:+ b → a = b.
Proof. induction p as [|x p IH]; simpl; [done | intros [= H]; auto]. Qed.

Lemma append_inv_tail (a b q : string) : a +:+ q = b +:+ q → a = b.
Proof.
  revert b. induction a as [|x a IH]; intros [|y b] H; simpl in *.
  - done.
  - apply (f_equal String.length) in H. simpl in H.
    rewrite append_length in H. lia.
  - apply (f_equal String.length) in H. simpl in H.
    rewrite append_length in H. lia.
  - injection H as -> H. f_equal. by apply IH.
Qed.

Lemma contains_app (c : ascii) (a b : string) :
  Str.contains c (a +:+ b) = Str.contains c a || Str.contains c b.
Proof.
  induction a as [|x a IH]; simpl; [done |].
  rewrite IH. by rewrite orb_assoc.
Qed.

Lemma count_app (c : ascii) (a b : string) :
  Str.count c (a +:+ b) = Str.count c a + Str.count c b.
Proof. induction a as [|x a IH]; simpl; [done | rewrite IH; lia]. Qed.

Lemma contains_count (c : ascii) (s : string) :
  Str.contains c s = true ↔ 0 < Str.count c s.
Proof.
  induction s as [|x s IH]; simpl; [split; [done | lia] |].
  destruct (Ascii.eqb x c); simpl; [split; [lia | done] | done].
Qed.

Lemma split_not_nil (sep : ascii) (s : string) : Str.split sep s ≠ [].
Proof.
  destruct s as [|a s]; simpl; [done |].
  destruct (Ascii.eqb a sep); [done |].
  by destruct (Str.split sep s).
Qed.

Lemma join_split (sep : ascii) (s : string) :
  Str.join (String sep "") (Str.split sep s) = s.
Proof.
  induction s as [|a s IH]; simpl; [done |].
  destruct (Ascii.eqb a sep) eqn:E.
  - apply Ascii.eqb_eq in E as ->.
    pose proof (split_not_nil sep s) as Hne.
    destruct (Str.split sep s) as [|w ws]; [done |].
    simpl in *. by rewrite IH.
  - destruct (Str.split sep s) as [|w ws] eqn:Es.
    + by destruct (split_not_nil sep s).
    + rewrite <- IH. by destruct ws.
Qed.

(** ** The schema compiler *)

Lemma scan_row_ok (st : scan) (row : string) :
  ∃ st', scan_row st row = inr st' ∧
         length (rows st') + length (keys st') = S (length (rows st) + length (keys st)) ∧
         (hit_keys st = true → hit_keys st' = true ∧ rows st' = rows st ∧
                               keys st' = keys st ++ [row]).
Proof.
  unfold scan_row.
  pose proof (split_not_nil " " row) as Hne.
  destruct (Str.split " " row) as [|f0 fs]; [done |]. simpl.
  destruct (is_key_word (Str.lower f0)); simpl.
  - eexists; split; [done |]. simpl. rewrite length_app. simpl. split; [lia | done].
  - destruct (hit_keys st) eqn:Eh.
    + eexists; split; [done |]. simpl. rewrite length_app. simpl. split; [lia | done].
    + eexists; split; [done |]. simpl. rewrite length_app. simpl. split; [lia | done].
Qed.

Lemma scan_rows_ok (l : list string) (st : scan) :
  ∃ st', scan_rows st l = inr st' ∧
         length (rows st') + length (keys st') =
           length l + (length (rows st) + length (keys st)).
Proof.
  revert st. induction l as [|row l IH]; intros st; simpl.
  - by exists st.
  - destruct (scan_row_ok st row) as (st1 & -> & Hlen & _).
    destruct (IH st1) as (st2 & -> & Hlen2).
    exists st2. split; [done | lia].
Qed.

Lemma scan_schema_ok (schema : string) :
  ∃ st, scan_schema schema = inr st ∧
        length (rows st) + length (keys st) = length (Str.split "," schema).
Proof.
  unfold scan_schema.
  destruct (scan_rows_ok (Str.split "," schema) (mkScan false [] []))
    as (st & -> & Hlen).
  exists st. split; [done |]. simpl in Hlen. lia.
Qed.

(** The loop at index [length done] over [done ++ k :: rest] does what
    [rejoin_from k rest] says, leaving [done] as it is, once the fuel
    covers the fragments still to come. *)
Lemma rejoin_loop_from (rest : list string) :
  ∀ (k : string) (done : list string) (fuel : nat),
    2 + length rest ≤ fuel →
    rejoin_loop fuel (done ++ k :: rest) (length done) =
      match rejoin_from k rest with
      | inl e => Raise e
      | inr ks => Return (done ++ ks)
      end.
Proof.
  induction rest as [|nxt rest IH]; intros k done fuel Hfuel.
  - destruct fuel as [|[|fuel]]; simpl in Hfuel; try lia.
    cbn [rejoin_loop rejoin_from].
    rewrite decide_True by (rewrite length_app; simpl; lia).
    rewrite lookup_app_r by lia. rewrite Nat.sub_diag. cbn [lookup list_lookup].
    destruct (open_paren k) eqn:Ek.
    + rewrite lookup_app_r by lia.
      replace (length done + 1 - length done) with 1 by lia. done.
    + rewrite decide_False by (rewrite length_app; simpl; lia). done.
  - destruct fuel as [|fuel]; simpl in Hfuel; try lia.
    cbn [rejoin_loop rejoin_from].
    rewrite decide_True by (rewrite length_app; simpl; lia).
    rewrite lookup_app_r by lia. rewrite Nat.sub_diag. cbn [lookup list_lookup].
    destruct (open_paren k) eqn:Ek.
    + rewrite lookup_app_r by lia.
      replace (length done + 1 - length done) with 1 by lia.
      cbn [lookup list_lookup].
      replace (<[length done:=k +:+ "," +:+ nxt]>
                 (delete (length done + 1) (done ++ k :: nxt :: rest)))
        with (done ++ (k +:+ "," +:+ nxt) :: rest).
      { apply IH. lia. }
      replace (length done + 1) with (length (done ++ [k]))
        by (rewrite length_app; simpl; lia).
      replace (done ++ k :: nxt :: rest) with ((done ++ [k]) ++ nxt :: rest)
        by (by rewrite <- app_assoc).
      rewrite delete_middle, <- app_assoc. simpl.
      rewrite insert_app_r_alt by lia. by rewrite Nat.sub_diag.
    + replace (done ++ k :: nxt :: rest) with ((done ++ [k]) ++ nxt :: rest)
        by (by rewrite <- app_assoc).
      replace (length done + 1) with (length (done ++ [k]))
        by (rewrite length_app; simpl; lia).
      rewrite IH by lia.
      destruct (rejoin_from nxt rest) as [e|ks]; [done |].
      by rewrite <- app_assoc.
Qed.

Lemma rejoin_spec (keys : list string) :
  rejoin keys =
    match keys with
    | [] => Return []
    | k :: rest => of_sum (rejoin_from k rest)
    end.
Proof.
  destruct keys as [|k rest]; [done |].
  unfold rejoin.
  pose proof (rejoin_loop_from rest k [] (S (length (k :: rest)))) as H.
  change ([] ++ k :: rest) with (k :: rest) in H.
  change (length (@nil string)) with 0 in H.
  rewrite H by (simpl; lia).
  by destruct (rejoin_from k rest).
Qed.

(** The fuel [rejoin] gives the loop is never used up. *)
Lemma rejoin_loop_fuel (keys : list string) : rejoin keys ≠ OutOfFuel.
Proof.
  rewrite rejoin_spec. destruct keys as [|k rest]; [done |].
  by destruct (rejoin_from k rest).
Qed.

Lemma rejoin_from_error (rest : list string) :
  ∀ k e, rejoin_from k rest = inl e → e = IndexError "pop index out of range".
Proof.
  induction rest as [|nxt rest IH]; intros k e; simpl.
  - destruct (open_paren k); [by intros [= <-] | done].
  - destruct (open_paren k); [by apply IH |].
    destruct (rejoin_from nxt rest) eqn:E; [| done].
    intros [= <-]. by eapply IH.
Qed.

Lemma open_paren_app_comma (k nxt : string) :
  open_paren k = true →
  open_paren (k +:+ "," +:+ nxt) = negb (Str.contains ")" nxt).
Proof.
  unfold open_paren. intros [Ho Hc]%andb_true_iff.
  rewrite !contains_app, Ho. simpl.
  apply negb_true_iff in Hc. rewrite Hc. done.
Qed.

(** A last fragment with ['('] and without [')'] makes the loop pop past
    the end of the list. *)
Lemma rejoin_from_last_open (rest : list string) :
  ∀ k z, last (k :: rest) = Some z → open_paren z = true →
         rejoin_from k rest = inl (IndexError "pop index out of range").
Proof.
  induction rest as [|nxt rest IH]; intros k z Hlast Hz.
  - simpl in Hlast. injection Hlast as ->. simpl. by rewrite Hz.
  - cbn [rejoin_from]. destruct (open_paren k) eqn:Ek.
    + destruct rest as [|n2 rest].
      * simpl in Hlast. injection Hlast as ->.
        apply (IH _ (k +:+ "," +:+ z)); [done |].
        rewrite open_paren_app_comma by done.
        unfold open_paren in Hz. apply andb_true_iff in Hz as [_ Hz]. done.
      * apply (IH _ z); [| done]. by rewrite !last_cons_cons in *.
    + rewrite (IH nxt z); [done | | done].
      by rewrite last_cons_cons in Hlast.
Qed.

(** What the loop returns has no fragment left with ['('] and without
    [')'], and glued back with commas it is the text it was given. *)
Lemma rejoin_from_closed (rest : list string) :
  ∀ k ks, rejoin_from k rest = inr ks →
          Forall (λ x, open_paren x = false) ks ∧
          Str.join "," ks = Str.join "," (k :: rest) ∧
          0 < length ks ≤ length (k :: rest).
Proof.
  induction rest as [|nxt rest IH]; intros k ks; cbn [rejoin_from].
  - destruct (open_paren k) eqn:Ek; [done |]. intros [= <-].
    repeat split; [by constructor | simpl; lia | simpl; lia].
  - destruct (open_paren k) eqn:Ek.
    + intros H. destruct (IH _ _ H) as (Hall & Hjoin & Hlen).
      split; [done |]. split.
      * rewrite Hjoin. cbn [Str.join]. destruct rest; [done |].
        by rewrite !append_assoc.
      * simpl in *. lia.
    + destruct (rejoin_from nxt rest) as [e|ks'] eqn:E; [done |].
      intros [= <-]. destruct (IH _ _ E) as (Hall & Hjoin & Hlen).
      split; [by constructor |]. split.
      * cbn [Str.join]. destruct ks' as [|k1 ks']; [simpl in Hlen; lia |].
        by rewrite Hjoin.
      * simpl in *. lia.
Qed.

Lemma rejoin_from_error_last (rest : list string) :
  ∀ k e, rejoin_from k rest = inl e →
         ∃ z, last (k :: rest) = Some z ∧ Str.contains ")" z = false.
Proof.
  induction rest as [|nxt rest IH]; intros k e; cbn [rejoin_from].
  - destruct (open_paren k) eqn:Ek; [| done]. intros _.
    exists k. split; [done |].
    unfold open_paren in Ek. apply andb_true_iff in Ek as [_ Ek].
    by apply negb_true_iff in Ek.
  - destruct (open_paren k) eqn:Ek.
    + intros H. destruct (IH _ _ H) as (z & Hlast & Hz).
      destruct rest as [|n2 rest].
      * simpl in Hlast. injection Hlast as <-.
        exists nxt. split; [done |].
        rewrite !contains_app in Hz. by apply orb_false_iff in Hz as [_ Hz].
      * exists z. by rewrite !last_cons_cons in *.
    + destruct (rejoin_from nxt rest) eqn:E; [| done]. intros _.
      destruct (IH _ _ E) as (z & Hlast & Hz).
      exists z. by rewrite last_cons_cons.
Qed.

(** C3, as amended. The declared schema of [medias] compiles to exactly
    two key constraints, the foreign-key clause and the rejoined
    [primary key(albumid, i_index)]. In general the loop tests for a
    ['('] with no [')'] in the fragment, not for balance: whenever it
    returns, no constraint is left with a ['('] and without a [')'], and
    the constraints glued with commas are the key fragments it was
    given. *)
Theorem rejoin_closes_open_fragments :
  ∀ (schema : string) (st : scan) (ks : list string),
    scan_schema schema = inr st →
    rejoin (keys st) = Return ks →
    Forall (λ k, open_paren k = false) ks
    ∧ Str.join "," ks = Str.join "," (keys st)
    ∧ SCHEMA !! "medias" = Some medias_schema
    ∧ ∃ st_m, scan_schema medias_schema = inr st_m
              ∧ keys st_m = [ "foreign key(albumid) references albums(rowid)";
                              "primary key(albumid"; " i_index)" ]
              ∧ rejoin (keys st_m) =
                  Return [ "foreign key(albumid) references albums(rowid)";
                           "primary key(albumid, i_index)" ].
Proof.
  intros schema st ks _ Hre.
  rewrite rejoin_spec in Hre.
  assert (Forall (λ k, open_paren k = false) ks
          ∧ Str.join "," ks = Str.join "," (keys st)) as [H1 H2].
  { destruct (keys st) as [|k rest].
    - injection Hre as <-. by split.
    - destruct (rejoin_from k rest) as [e|ks'] eqn:E; [done |].
      injection Hre as <-.
      destruct (rejoin_from_closed _ _ _ E) as (? & ? & ?). by split. }
  split; [done |]. split; [done |]. split; [by vm_compute |].
  eexists. split; [by vm_compute |]. split; by vm_compute.
Qed.

Lemma rejoin_closes_open_fragments_witness :
  scan_schema "a integer,b text,primary key(a, b)"
    = inr (mkScan true ["               a integer"; "               b text"]
                  ["primary key(a"; " b)"])
  ∧ rejoin ["primary key(a"; " b)"] = Return ["primary key(a, b)"]
  ∧ Forall (λ k, open_paren k = false) ["primary key(a, b)"].
Proof.
  split; [by vm_compute |]. split; [by vm_compute |].
  exact (proj1 (rejoin_closes_open_fragments
                  "a integer,b text,primary key(a, b)"
                  (mkScan true ["               a integer"; "               b text"]
                          ["primary key(a"; " b)"])
                  ["primary key(a, b)"] eq_refl eq_refl)).
Defined.

(** C3 as stated fails: a composite foreign key followed by a primary
    key compiles to three key constraints, the first cut inside its
    second parenthesis (its fragment already holds a [')']). *)
Lemma composite_foreign_key_is_split :
  scan_schema ("albumid integer,i_index integer," +:+
               "foreign key(albumid, i_index) references medias(albumid, i_index)," +:+
               "primary key(albumid, i_index)")
    = inr (mkScan true
             ["         albumid integer"; "         i_index integer"]
             [ "foreign key(albumid"; " i_index) references medias(albumid";
               " i_index)"; "primary key(albumid"; " i_index)" ])
  ∧ rejoin [ "foreign key(albumid"; " i_index) references medias(albumid";
             " i_index)"; "primary key(albumid"; " i_index)" ]
    = Return [ "foreign key(albumid, i_index) references medias(albumid";
               " i_index)"; "primary key(albumid, i_index)" ].
Proof. split; by vm_compute. Qed.

Lemma create_table_query_raise (table_name schema : string) (e : exn) :
  create_table_query table_name schema = Raise e →
  e = IndexError "pop index out of range".
Proof.
  unfold create_table_query.
  destruct (scan_schema_ok schema) as (st & -> & _).
  rewrite rejoin_spec. destruct (keys st) as [|k rest]; [done |].
  destruct (rejoin_from k rest) as [e'|ks] eqn:E; [| done].
  intros [= <-]. by eapply rejoin_from_error.
Qed.

Lemma create_table_query_fuel (table_name schema : string) :
  create_table_query table_name schema ≠ OutOfFuel.
Proof.
  unfold create_table_query.
  destruct (scan_schema_ok schema) as (st & -> & _).
  pose proof (rejoin_loop_fuel (keys st)).
  by destruct (rejoin (keys st)).
Qed.

(** C5 as stated fails: a schema whose second column clause is empty,
    so has no name token, compiles to a statement. *)
Lemma empty_column_clause_compiles :
  create_table_query "t" "a text,,b text"
  = Return (create_table_text "t"
              ["               a text"; "                 "; "               b text"]
              []).
Proof. by vm_compute. Qed.

(** C5, as amended. No column clause is ever rejected: every
    comma-split clause becomes a column line or a key fragment whatever
    its text, and building the statement fails only in the key loop,
    with the [IndexError] of [keys.pop]; there is no schema error. *)
Theorem create_table_query_total :
  ∀ (table_name schema : string),
    ∃ st, scan_schema schema = inr st
          ∧ length (rows st) + length (keys st) = length (Str.split "," schema)
          ∧ match create_table_query table_name schema with
            | Return q =>
                ∃ ks, rejoin (keys st) = Return ks
                      ∧ q = create_table_text table_name (rows st) ks
            | Raise e =>
                e = IndexError "pop index out of range" ∧ keys st ≠ []
            | OutOfFuel => False
            end.
Proof.
  intros table_name schema.
  destruct (scan_schema_ok schema) as (st & Hscan & Hlen).
  exists st. split; [done |]. split; [done |].
  unfold create_table_query. rewrite Hscan.
  pose proof (rejoin_spec (keys st)) as Hspec.
  destruct (keys st) as [|k rest] eqn:Ek.
  - rewrite Hspec. by exists [].
  - rewrite Hspec. destruct (rejoin_from k rest) as [e|ks] eqn:E; simpl.
    + split; [by eapply rejoin_from_error | done].
    + by exists ks.
Qed.

Lemma open_paren_true (k : string) :
  open_paren k = true ↔ Str.contains "(" k = true ∧ Str.contains ")" k = false.
Proof.
  unfold open_paren. rewrite andb_true_iff, negb_true_iff. done.
Qed.

Lemma rejoin_from_dangling (rest : list string) :
  ∀ k, (∃ e, rejoin_from k rest = inl e) ↔ dangling (k :: rest).
Proof.
  induction rest as [|nxt rest IH]; intros k; cbn [rejoin_from].
  - destruct (open_paren k) eqn:Ek; split.
    + intros _. apply open_paren_true in Ek as [Ho Hc].
      apply dangling_here; [done |]. by constructor.
    + intros _. by eexists.
    + by intros [e He].
    + intros Hd. inversion Hd as [k' r' Ho Hall | k' r' Hd']; subst.
      * apply Forall_cons in Hall as [Hc _].
        assert (open_paren k = true) by (by apply open_paren_true). congruence.
      * inversion Hd'.
  - destruct (open_paren k) eqn:Ek.
    + apply open_paren_true in Ek as [Ho Hc]. rewrite IH. split.
      * intros Hd. inversion Hd as [k' r' Ho' Hall | k' r' Hd']; subst.
        -- apply Forall_cons in Hall as [Hm Hall].
           rewrite !contains_app in Hm.
           apply orb_false_iff in Hm as [_ [_ Hn]%orb_false_iff].
           apply dangling_here; [done |]. by repeat constructor.
        -- by do 2 apply dangling_later.
      * intros Hd. inversion Hd as [k' r' Ho' Hall | k' r' Hd']; subst.
        -- apply Forall_cons in Hall as [_ [Hn Hall]%Forall_cons].
           apply dangling_here.
           ++ by rewrite contains_app, Ho.
           ++ constructor; [| done]. rewrite !contains_app, Hc, Hn. done.
        -- inversion Hd' as [k' r' Ho' Hall | k' r' Hd'']; subst.
           ++ pose proof Hall as [Hn Hall']%Forall_cons.
              apply dangling_here.
              ** by rewrite contains_app, Ho.
              ** constructor; [| done]. rewrite !contains_app, Hc, Hn. done.
           ++ by apply dangling_later.
    + split.
      * destruct (rejoin_from nxt rest) as [e|ks] eqn:E; [| by intros [e He]].
        intros _. apply dangling_later, IH. by eexists.
      * intros Hd. inversion Hd as [k' r' Ho Hall | k' r' Hd']; subst.
        -- apply Forall_cons in Hall as [Hc _].
           assert (open_paren k = true) by (by apply open_paren_true). congruence.
        -- apply IH in Hd' as [e ->]. by eexists.
Qed.

Lemma last_open_dangling (keys : list string) (z : string) :
  last keys = Some z → open_paren z = true → dangling keys.
Proof.
  intros Hlast [Ho Hc]%open_paren_true.
  induction keys as [|k rest IH]; [done |].
  destruct rest as [|k2 rest].
  - simpl in Hlast. injection Hlast as ->.
    apply dangling_here; [done |]. by constructor.
  - apply dangling_later, IH. by rewrite last_cons_cons in Hlast.
Qed.

(** C9. The rejoin loop pops [keys[i+1]] without a bounds check. It
    returns exactly when no parenthesis of the key fragments is left
    dangling; otherwise, and so whenever the last key fragment holds a
    ['('] and no [')'], [create_table] raises the [IndexError] of
    [keys.pop] before any statement reaches the connection, leaving the
    object as it was. *)
Theorem create_table_pop_out_of_range :
  ∀ {conn : Type} `{!Engine conn} (fuel : nat) (table_name schema : string)
    (st : scan) (db : DB conn),
    scan_schema schema = inr st →
    (∀ z, last (keys st) = Some z → open_paren z = true → dangling (keys st))
    ∧ (dangling (keys st) ↔
       create_table_query table_name schema
         = Raise (IndexError "pop index out of range"))
    ∧ (dangling (keys st) →
       create_table fuel table_name schema db
         = (Raise (IndexError "pop index out of range"), db))
    ∧ (¬ dangling (keys st) →
       ∃ q, create_table_query table_name schema = Return q).
Proof.
  intros conn E fuel table_name schema st db Hscan.
  split; [intros z; apply last_open_dangling |].
  assert (dangling (keys st) ↔
          create_table_query table_name schema
            = Raise (IndexError "pop index out of range")) as Hiff.
  { unfold create_table_query. rewrite Hscan, rejoin_spec.
    destruct (keys st) as [|k rest]; [split; [intros H; inversion H | done] |].
    rewrite <- rejoin_from_dangling. split.
    - intros [e He]. rewrite He. simpl. f_equal. by eapply rejoin_from_error.
    - destruct (rejoin_from k rest) as [e|ks]; [by eexists | done]. }
  split; [done |]. split.
  - intros Hd%Hiff. unfold create_table, mbind, M_bind. by rewrite Hd.
  - intros Hnd.
    pose proof (create_table_query_raise table_name schema) as Hraise.
    pose proof (create_table_query_fuel table_name schema) as Hfuel.
    destruct (create_table_query table_name schema) as [q|e|].
    + by exists q.
    + rewrite (Hraise e eq_refl) in Hiff. exfalso. by apply Hnd, Hiff.
    + done.
Qed.

Lemma create_table_pop_out_of_range_witness :
  scan_schema "a integer,primary key(a"
    = inr (mkScan true ["               a integer"] ["primary key(a"])
  ∧ open_paren "primary key(a" = true
  ∧ create_table (conn := Scripted.conn) 1 "t" "a integer,primary key(a"
      (mkDB [] Stderr [] [] "" 0 [])
    = (Raise (IndexError "pop index out of range"), mkDB [] Stderr [] [] "" 0 []).
Proof.
  split; [by vm_compute |]. split; [by vm_compute |].
  pose proof (create_table_pop_out_of_range (conn := Scripted.conn)
                1 "t" "a integer,primary key(a"
                (mkScan true ["               a integer"] ["primary key(a"])
                (mkDB [] Stderr [] [] "" 0 []) eq_refl) as (Hlast & _ & Hraise & _).
  exact (Hraise (Hlast "primary key(a" eq_refl eq_refl)).
Defined.

(** ** The commit loop *)

Section CommitLoop.

Context {conn : Type} `{!Engine conn}.

Lemma commit_retry_step (fuel : nat) (db : DB conn) (e : exn) (c1 : conn) :
  conn_commit (db_conn db) = (Some e, c1) →
  commit (S fuel) db = commit fuel (retry_state c1 db).
Proof.
  intros H. cbn [commit]. unfold mbind, M_bind at 1, try_conn_commit.
  rewrite H. unfold mbind, M_bind, debug, write, sleep, retry_state, mret, M_ret.
  cbn. by destruct (logger db).
Qed.

Lemma commit_ok_step (fuel : nat) (db : DB conn) (c1 : conn) :
  conn_commit (db_conn db) = (None, c1) →
  commit (S fuel) db = (Return (), commit_state c1 db).
Proof.
  intros H. cbn [commit]. unfold mbind, M_bind, try_conn_commit.
  by rewrite H.
Qed.

Lemma commit_never_raises (fuel : nat) :
  ∀ (db : DB conn) (e : exn), (commit fuel db).1 ≠ Raise e.
Proof.
  induction fuel as [|fuel IH]; intros db e; [done |].
  destruct (conn_commit (db_conn db)) as [[e'|] c1] eqn:Hc.
  - rewrite (commit_retry_step _ _ _ _ Hc). apply IH.
  - by rewrite (commit_ok_step _ _ _ Hc).
Qed.

Lemma commit_after_failures (n : nat) :
  ∀ (c c' : conn), fails_then_commits n c c' →
  ∀ (fuel : nat) (db : DB conn),
    db_conn db = c → n < fuel →
    ∃ db', commit fuel db = (Return (), db')
           ∧ db_conn db' = c'
           ∧ slept_ms db' = slept_ms db + 100 * n
           ∧ history db' =
               history db ++ replicate n (CallCommit false) ++ [CallCommit true]
           ∧ stderr_lines db' =
               stderr_lines db ++
               replicate n (debug_line (now db) "failed to commit, retrying...").
Proof.
  intros c c' Hftc. induction Hftc as [c c' Hc | n c e c1 c' Hc Hftc IH];
    intros fuel db Hdb Hfuel; destruct fuel as [|fuel]; try lia; subst c.
  - rewrite (commit_ok_step _ _ _ Hc). eexists. split; [done |].
    simpl. rewrite app_nil_r. repeat split; lia.
  - rewrite (commit_retry_step _ _ _ _ Hc).
    destruct (IH fuel (retry_state c1 db) eq_refl ltac:(lia))
      as (db' & -> & Hconn & Hslept & Hhist & Herr).
    exists db'. split; [done |]. split; [done |].
    simpl in *. rewrite Hslept, Hhist, Herr, <- !app_assoc.
    repeat split; lia.
Qed.

(** A connection on which [commit()] always raises keeps the loop
    going for as long as the model is run. *)
Lemma commit_spins (fuel : nat) :
  (∀ c : conn, ∃ e c1, conn_commit c = (Some e, c1)) →
  ∀ db : DB conn, (commit fuel db).1 = OutOfFuel.
Proof.
  intros Hall. induction fuel as [|fuel IH]; intros db; [done |].
  destruct (Hall (db_conn db)) as (e & c1 & Hc).
  rewrite (commit_retry_step _ _ _ _ Hc). apply IH.
Qed.

(** While the attempts fail the loop goes on: after [n] failed attempts
    it has neither returned nor raised. *)
Lemma commit_while_failing (n : nat) :
  ∀ (c c' : conn), keeps_failing n c c' →
  ∀ (db : DB conn),
    db_conn db = c →
    ∃ db', commit n db = (OutOfFuel, db')
           ∧ db_conn db' = c'
           ∧ slept_ms db' = slept_ms db + 100 * n
           ∧ history db' = history db ++ replicate n (CallCommit false)
           ∧ stderr_lines db' =
               stderr_lines db ++
               replicate n (debug_line (now db) "failed to commit, retrying...").
Proof.
  intros c c' Hkf. induction Hkf as [c | n c e c1 c' Hc Hkf IH];
    intros db Hdb; subst c.
  - exists db. simpl. rewrite !app_nil_r. repeat split; lia.
  - rewrite (commit_retry_step _ _ _ _ Hc).
    destruct (IH (retry_state c1 db) eq_refl)
      as (db' & -> & Hconn & Hslept & Hhist & Herr).
    exists db'. split; [done |]. split; [done |].
    simpl in *. rewrite Hslept, Hhist, Herr, <- !app_assoc.
    repeat split; lia.
Qed.

(** A [commit] that returns has seen an attempt succeed. *)
Lemma commit_returns_after_success (fuel : nat) :
  ∀ (db db' : DB conn),
    commit fuel db = (Return (), db') →
    ∃ n, n < fuel ∧ fails_then_commits n (db_conn db) (db_conn db').
Proof.
  induction fuel as [|fuel IH]; intros db db'; [done |].
  destruct (conn_commit (db_conn db)) as [[e|] c1] eqn:Hc.
  - rewrite (commit_retry_step _ _ _ _ Hc). intros H.
    destruct (IH _ _ H) as (n & Hn & Hftc). exists (S n). split; [lia |].
    by eapply ftc_fails.
  - rewrite (commit_ok_step _ _ _ Hc). intros [= <-]. exists 0.
    split; [lia |]. by apply ftc_commits.
Qed.

End CommitLoop.

(** C1, as amended. On any connection and for any number [fuel] of
    loop turns: [commit] never raises, whatever the underlying commit
    raised; when the next [n] attempts raise and the one after
    succeeds, [commit] returns, having slept [n] times 100 ms and
    logged [n] lines, and it returns in no other way; when the next
    [fuel] attempts all raise, the loop has retried [fuel] times and is
    still running, so no number of attempts ends it, and on a
    connection whose commit always fails it never returns. *)
Theorem commit_retries_every_failure :
  ∀ {conn : Type} `{!Engine conn} (fuel : nat) (db : DB conn),
    (∀ e : exn, (commit fuel db).1 ≠ Raise e)
    ∧ (∀ (n : nat) (c' : conn),
         fails_then_commits n (db_conn db) c' →
         n < fuel →
         ∃ db', commit fuel db = (Return (), db')
                ∧ db_conn db' = c'
                ∧ slept_ms db' = slept_ms db + 100 * n
                ∧ history db' =
                    history db ++ replicate n (CallCommit false)
                    ++ [CallCommit true]
                ∧ stderr_lines db' =
                    stderr_lines db ++
                    replicate n
                      (debug_line (now db) "failed to commit, retrying..."))
    ∧ (∀ db' : DB conn,
         commit fuel db = (Return (), db') →
         ∃ n, n < fuel ∧ fails_then_commits n (db_conn db) (db_conn db'))
    ∧ (∀ c' : conn,
         keeps_failing fuel (db_conn db) c' →
         ∃ db', commit fuel db = (OutOfFuel, db')
                ∧ db_conn db' = c'
                ∧ slept_ms db' = slept_ms db + 100 * fuel
                ∧ history db' = history db ++ replicate fuel (CallCommit false)
                ∧ stderr_lines db' =
                    stderr_lines db ++
                    replicate fuel
                      (debug_line (now db) "failed to commit, retrying..."))
    ∧ ((∀ c : conn, ∃ e c1, conn_commit c = (Some e, c1)) →
       (commit fuel db).1 = OutOfFuel).
Proof.
  intros conn E fuel db. split; [| split; [| split; [| split]]].
  - intros e. apply commit_never_raises.
  - intros n c' Hftc Hfuel. by eapply commit_after_failures.
  - apply commit_returns_after_success.
  - intros c' Hkf. by eapply commit_while_failing.
  - intros Hall. by apply commit_spins.
Qed.

Lemma commit_retries_every_failure_witness :
  (fails_then_commits 2 [Some locked_error; Some io_error] []
   ∧ ∃ db', commit 3 (mkDB [Some locked_error; Some io_error] Stderr [] [] "[t]" 0 [])
            = (Return (), db')
            ∧ slept_ms db' = 200)
  ∧ (keeps_failing 4 (Locked.attempts 0) (Locked.attempts 4)
     ∧ ∃ db', commit 4 (mkDB (Locked.attempts 0) Stderr [] [] "[t]" 0 [])
              = (OutOfFuel, db')
              ∧ slept_ms db' = 400
              ∧ history db' = replicate 4 (CallCommit false)).
Proof.
  assert (fails_then_commits 2 [Some locked_error; Some io_error] []) as H.
  { eapply ftc_fails; [reflexivity |]. eapply ftc_fails; [reflexivity |].
    by apply ftc_commits. }
  assert (keeps_failing 4 (Locked.attempts 0) (Locked.attempts 4)) as K.
  { do 4 (eapply kf_fails; [reflexivity |]). apply kf_none. }
  split.
  - split; [exact H |].
    destruct (proj1 (proj2 (@commit_retries_every_failure Scripted.conn
                              Scripted.engine 3
                              (mkDB [Some locked_error; Some io_error]
                                 Stderr [] [] "[t]" 0 [])))
                _ _ H ltac:(lia))
      as (db' & Hc & _ & Hs & _).
    exists db'. split; [exact Hc | exact Hs].
  - split; [exact K |].
    destruct (proj1 (proj2 (proj2 (proj2
                (@commit_retries_every_failure Locked.conn Locked.engine 4
                   (mkDB (Locked.attempts 0) Stderr [] [] "[t]" 0 [])))))
                _ K)
      as (db' & Hc & _ & Hs & Hh & _).
    exists db'. split; [exact Hc |]. split; [exact Hs | exact Hh].
Defined.

(** C1 as stated fails: a commit that fails once with an I/O error, not
    with lock contention, is retried after the wait and [commit]
    returns; the failure never reaches the caller. *)
Lemma commit_retries_io_error :
  commit 2 (mkDB [Some io_error] Stderr [] [] "[t]" 0 [])
  = (Return (),
     mkDB [] Stderr [debug_line "[t]" "failed to commit, retrying..."] [] "[t]" 100
          [CallCommit false; CallCommit true]).
Proof. reflexivity. Qed.

(** ** What reaches the connection *)

Section Effects.

Context {conn : Type} `{!Engine conn}.

Lemma executed_app (h2 : list call) (db1 db2 : DB conn) :
  history db2 = history db1 ++ h2 →
  executed db2 =
    executed db1 ++
    omap (λ c, match c with CallExecute q _ => Some q | _ => None end) h2.
Proof. unfold executed. intros ->. by rewrite omap_app. Qed.

Lemma commits_ok_app (h2 : list call) (db1 db2 : DB conn) :
  history db2 = history db1 ++ h2 →
  commits_ok db2 =
    commits_ok db1 + length (filter (λ c, is_commit_ok c = true) h2).
Proof. unfold commits_ok. intros ->. by rewrite filter_app, length_app. Qed.

Lemma execute_effect (q : string) (ps : list value) (db db' : DB conn) r :
  execute q ps db = (r, db') →
  executed db' = executed db ++ [q] ∧ commits_ok db' = commits_ok db.
Proof.
  unfold execute. destruct (conn_execute q ps (db_conn db)) as [[e|cur] c].
  - intros [= <- <-]. split.
    + by erewrite executed_app by (simpl; done).
    + erewrite commits_ok_app by (simpl; done). simpl. lia.
  - intros [= <- <-]. split.
    + by erewrite executed_app by (simpl; done).
    + erewrite commits_ok_app by (simpl; done). simpl. lia.
Qed.

(** A call of [commit] that returns has made exactly one successful
    [conn.commit()] and executed nothing. *)
Lemma commit_effect (fuel : nat) :
  ∀ (db db' : DB conn),
    commit fuel db = (Return (), db') →
    executed db' = executed db ∧ commits_ok db' = S (commits_ok db).
Proof.
  induction fuel as [|fuel IH]; intros db db'; [done |].
  destruct (conn_commit (db_conn db)) as [[e|] c1] eqn:Hc.
  - rewrite (commit_retry_step _ _ _ _ Hc). intros H.
    destruct (IH _ _ H) as [-> ->]. split.
    + erewrite (executed_app _ db (retry_state c1 db)) by (simpl; done).
      simpl. by rewrite app_nil_r.
    + erewrite (commits_ok_app _ db (retry_state c1 db)) by (simpl; done).
      simpl. lia.
  - rewrite (commit_ok_step _ _ _ Hc). intros [= <-]. split.
    + erewrite executed_app by (simpl; done). simpl. by rewrite app_nil_r.
    + erewrite commits_ok_app by (simpl; done). simpl. lia.
Qed.

(** [create_table] commits, whatever its docstring says. *)
Lemma create_table_effect (fuel : nat) (table_name schema : string)
  (db db' : DB conn) :
  create_table fuel table_name schema db = (Return (), db') →
  ∃ q, create_table_query table_name schema = Return q
       ∧ executed db' = executed db ++ [q]
       ∧ commits_ok db' = S (commits_ok db).
Proof.
  unfold create_table, mbind, M_bind.
  destruct (create_table_query table_name schema) as [q| |]; [| done..].
  destruct (execute q [] db) as [[cur| |] db1] eqn:Hex; [| done..].
  intros Hc. apply execute_effect in Hex as [Hex1 Hex2].
  apply commit_effect in Hc as [Hc1 Hc2].
  exists q. split; [done |]. split; congruence.
Qed.

(** So does [create_index]. *)
Lemma create_index_effect (fuel : nat) (index key : string)
  (name : option string) (db db' : DB conn) :
  create_index fuel index key name db = (Return (), db') →
  executed db' =
    executed db ++
    [create_index_query (default (index_name index key) name) index key]
  ∧ commits_ok db' = S (commits_ok db).
Proof.
  unfold create_index, mbind, M_bind.
  destruct (execute _ [] db) as [[cur| |] db1] eqn:Hex; [| done..].
  intros Hc. apply execute_effect in Hex as [Hex1 Hex2].
  apply commit_effect in Hc as [Hc1 Hc2].
  split; congruence.
Qed.

Lemma for_each_effect {A} (body : A → M (DB conn) ()) (stmt : A → string) :
  (∀ x db db', body x db = (Return (), db') →
               executed db' = executed db ++ [stmt x]
               ∧ commits_ok db' = S (commits_ok db)) →
  ∀ (l : list A) (db db' : DB conn),
    for_each l body db = (Return (), db') →
    executed db' = executed db ++ (stmt <$> l)
    ∧ commits_ok db' = length l + commits_ok db.
Proof.
  intros Hbody. induction l as [|x l IH]; intros db db'; simpl.
  - intros [= <-]. by rewrite app_nil_r.
  - unfold mbind, M_bind.
    destruct (body x db) as [[[]| |] db1] eqn:Hb; [| done..].
    intros Hl. destruct (IH _ _ Hl) as [-> ->].
    destruct (Hbody _ _ _ Hb) as [-> ->].
    rewrite <- app_assoc. split; [done | lia].
Qed.

Lemma debug_effect (text : string) (db : DB conn) :
  ∃ db', debug text db = (Return (), db') ∧ history db' = history db.
Proof.
  unfold debug, mbind, M_bind, write, mret, M_ret.
  destruct (logger db); eexists; split; done.
Qed.

(** A construction that returns has executed one statement per
    declared table, then one per entry of [INDICES], and each of these
    calls has committed, before the final commit. *)
Lemma init_effect (fuel : nat) (DB_FILE : string) (file_exists : bool)
  (tables indices : list (string * string))
  (c : conn) (tstamp : string) (db' : DB conn) :
  __init__ fuel DB_FILE file_exists tables indices c tstamp = (Return (), db') →
  executed db' = init_statements tables indices
  ∧ commits_ok db' = length tables + length indices + 1.
Proof.
  unfold __init__, init_body, init_statements.
  set (db0 := mkDB c Stderr [] [] tstamp 0 []).
  set (msg := if file_exists then _ else _).
  unfold mbind at 1. unfold M_bind at 1.
  assert (∃ db1, msg db0 = (Return (), db1) ∧ history db1 = []) as
    (db1 & -> & Hh1).
  { subst msg. destruct file_exists;
      match goal with
      | |- context [debug ?t db0] =>
          destruct (debug_effect t db0) as (d & ? & ?); eauto
      end. }
  unfold mbind at 1. unfold M_bind at 1.
  destruct (for_each tables _ db1) as [[[]| |] db2] eqn:Ht; [| done..].
  unfold mbind at 1. unfold M_bind at 1.
  destruct (for_each indices _ db2) as [[[]| |] db3] eqn:Hi; [| done..].
  intros Hc.
  apply (for_each_effect _ table_statement) in Ht as [Ht1 Ht2].
  2:{ intros [t s] d d' Hb. apply create_table_effect in Hb as (q & Hq & ? & ?).
      simpl in Hq. unfold table_statement. simpl. by rewrite Hq. }
  apply (for_each_effect _ index_statement) in Hi as [Hi1 Hi2].
  2:{ intros [t s] d d' Hb. by apply create_index_effect in Hb. }
  apply commit_effect in Hc as [Hc1 Hc2].
  assert (executed db1 = [] ∧ commits_ok db1 = 0) as [He1 Hk1]
    by (unfold executed, commits_ok; by rewrite Hh1).
  rewrite Hc1, Hi1, Ht1, Hc2, Hi2, Ht2, He1, Hk1.
  split; [done | lia].
Qed.

End Effects.

(** On a connection whose statements and commits all succeed at once
    every call of the construction returns. *)
Lemma for_each_returns {conn : Type} {A} (body : A → M (DB conn) ())
  (P : DB conn → Prop) (Q : A → Prop) :
  (∀ x db, Q x → P db → ∃ db', body x db = (Return (), db') ∧ P db') →
  ∀ (l : list A) (db : DB conn),
    Forall Q l → P db → ∃ db', for_each l body db = (Return (), db') ∧ P db'.
Proof.
  intros Hbody. induction l as [|x l IH]; intros db Hl HP; simpl.
  - by exists db.
  - apply Forall_cons in Hl as [Hx Hl].
    destruct (Hbody x db Hx HP) as (db1 & Hb & HP1).
    unfold mbind, M_bind. rewrite Hb. by apply IH.
Qed.

Lemma scripted_commit (db : DB Scripted.conn) :
  db_conn db = [] →
  ∃ db', commit 1 db = (Return (), db') ∧ db_conn db' = [].
Proof.
  intros Hc. rewrite (commit_ok_step 0 db []) by (by rewrite Hc).
  by eexists.
Qed.

Lemma scripted_statement (q : string) (db : DB Scripted.conn) :
  db_conn db = [] →
  ∃ db', (execute q [] ;; commit 1) db = (Return (), db') ∧ db_conn db' = [].
Proof.
  intros Hc. unfold mbind, M_bind, execute. cbn [conn_execute Scripted.engine].
  unfold Scripted.execute. apply scripted_commit. by simpl.
Qed.

Lemma scripted_create_table (kv : string * string) (db : DB Scripted.conn) :
  Is_true (match create_table_query kv.1 kv.2 with
           | Return _ => true
           | _ => false
           end) →
  db_conn db = [] →
  ∃ db', create_table 1 kv.1 kv.2 db = (Return (), db') ∧ db_conn db' = [].
Proof.
  intros Hq Hc. unfold create_table. unfold mbind at 1. unfold M_bind at 1.
  destruct (create_table_query kv.1 kv.2); try done.
  by apply scripted_statement.
Qed.

Lemma schema_compiles (tables : list (string * string)) :
  dict_order SCHEMA tables →
  Forall (λ kv, Is_true (match create_table_query kv.1 kv.2 with
                         | Return _ => true
                         | _ => false
                         end)) tables.
Proof.
  intros Ho. rewrite Ho. apply (bool_decide_unpack _). by vm_compute.
Qed.

Lemma scripted_init_returns (DB_FILE : string) (file_exists : bool)
  (tables indices : list (string * string)) (tstamp : string) :
  dict_order SCHEMA tables →
  ∃ db', __init__ (conn := Scripted.conn) 1 DB_FILE file_exists tables indices
           [] tstamp = (Return (), db').
Proof.
  intros Ht. apply schema_compiles in Ht.
  unfold __init__, init_body.
  set (db0 := mkDB ([] : Scripted.conn) Stderr [] [] tstamp 0 []).
  set (msg := if file_exists then _ else _).
  unfold mbind at 1. unfold M_bind at 1.
  assert (∃ db1, msg db0 = (Return (), db1) ∧ db_conn db1 = []) as
    (db1 & -> & Hc1).
  { subst msg. destruct file_exists; by eexists. }
  unfold mbind at 1. unfold M_bind at 1.
  destruct (for_each_returns (conn := Scripted.conn)
              (λ kv, create_table 1 kv.1 kv.2)
              (λ db : DB Scripted.conn, db_conn db = []) _ scripted_create_table
              tables db1 Ht Hc1) as (db2 & -> & Hc2).
  unfold mbind at 1. unfold M_bind at 1.
  destruct (for_each_returns (conn := Scripted.conn)
              (λ kv, create_index 1 kv.1 kv.2 None)
              (λ db : DB Scripted.conn, db_conn db = []) (λ _, True)
              (λ kv db _ Hc, scripted_statement _ db Hc)
              indices db2 (Forall_true _ _ (λ _, I)) Hc2) as (db3 & -> & Hc3).
  destruct (scripted_commit db3 Hc3) as (db4 & Hf4 & _). by exists db4.
Qed.

(** C4, evaluated on a connection on which every call succeeds at once:
    in whatever order the two dicts are walked, constructing the object
    commits ten times, once in each of the six [create_table] calls,
    once in each of the three [create_index] calls, and once at the
    end; a single [create_table] or [create_index] commits once. *)
Theorem init_commits_after_every_statement :
  ∀ (tables indices : list (string * string)),
    dict_order SCHEMA tables →
    dict_order INDICES indices →
    (__init__ (conn := Scripted.conn) 1 "database.db" true tables indices
       [] "[t]").1 = Return ()
    ∧ commits_ok (__init__ (conn := Scripted.conn) 1 "database.db" true
                    tables indices [] "[t]").2 = 10
    ∧ history (create_table (conn := Scripted.conn) 1 "config"
                 "key   text primary key,value text"
                 (mkDB [] Stderr [] [] "[t]" 0 [])).2
      = [ CallExecute (create_table_text "config"
                         ["             key text primary key";
                          "           value text"] []) [];
          CallCommit true ]
    ∧ history (create_index (conn := Scripted.conn) 1 "config" "key" None
                 (mkDB [] Stderr [] [] "[t]" 0 [])).2
      = [ CallExecute (create_index_query "config_key" "config" "key") [];
          CallCommit true ].
Proof.
  intros tables indices Ht Hi.
  destruct (scripted_init_returns "database.db" true tables indices "[t]" Ht)
    as [db' Hinit].
  rewrite Hinit. apply init_effect in Hinit as [_ Hk].
  split; [done |]. split; [| split; by vm_compute].
  simpl. rewrite Hk.
  rewrite (Permutation_length Ht), (Permutation_length Hi). by vm_compute.
Qed.

Lemma init_commits_after_every_statement_witness :
  dict_order SCHEMA SCHEMA_items
  ∧ dict_order INDICES INDICES_kept
  ∧ commits_ok (__init__ (conn := Scripted.conn) 1 "database.db" true
                  SCHEMA_items INDICES_kept [] "[t]").2 = 10.
Proof.
  assert (dict_order SCHEMA SCHEMA_items) as Ht
    by (unfold dict_order; apply (bool_decide_unpack _); vm_compute; reflexivity).
  assert (dict_order INDICES INDICES_kept) as Hi
    by (unfold dict_order; apply (bool_decide_unpack _); vm_compute; reflexivity).
  split; [exact Ht |]. split; [exact Hi |].
  exact (proj1 (proj2 (init_commits_after_every_statement
                         SCHEMA_items INDICES_kept Ht Hi))).
Defined.

(** ** The index table *)

Lemma dict_literal_snoc (items : list (string * string)) (kv : string * string) :
  dict_literal (items ++ [kv]) = <[kv.1 := kv.2]> (dict_literal items).
Proof. unfold dict_literal. by rewrite fold_left_app. Qed.




(** ** The config statements *)

Lemma strip_prefix_app (p s : string) : strip_prefix p (p +:+ s) = Some s.
Proof.
  induction p as [|a p IH]; simpl; [by destruct s |].
  by rewrite Ascii.eqb_refl.
Qed.

Lemma dq_token_length_bound (n : nat) :
  ∀ s t r, String.length s ≤ n → dq_token s = Some (t, r) →
           String.length s =
             String.length t + Str.count Str.dquote t + 1 + String.length r.
Proof.
  induction n as [|n IH]; intros s t r Hn; destruct s as [|a s]; simpl in *;
    try done; try lia.
  destruct (Ascii.eqb a Str.dquote) eqn:Ea.
  - destruct s as [|b s]; simpl in *.
    + intros [= <- <-]. simpl. lia.
    + destruct (Ascii.eqb b Str.dquote) eqn:Eb.
      * destruct (dq_token s) as [[t' r']|] eqn:Et; [| done].
        intros [= <- <-]. apply IH in Et; [| lia]. simpl.
        rewrite Et. simpl. lia.
      * intros [= <- <-]. simpl. lia.
  - destruct (dq_token s) as [[t' r']|] eqn:Et; [| done].
    intros [= <- <-]. apply IH in Et; [| lia]. simpl. rewrite Ea, Et. lia.
Qed.

Lemma dq_token_plain (key : string) :
  Str.contains Str.dquote key = false →
  dq_token (key +:+ get_config_suffix) = Some (key, NL +:+ T2).
Proof.
  induction key as [|a key IH]; simpl; [done |].
  intros [Ha Hk]%orb_false_iff. rewrite Ha. by rewrite IH.
Qed.

Lemma dq_token_quoted (key : string) :
  Str.contains Str.dquote key = true →
  dq_token (key +:+ get_config_suffix) ≠ Some (key, NL +:+ T2).
Proof.
  intros Hk Ht. apply (dq_token_length_bound _ _ _ _ (le_n _)) in Ht.
  rewrite append_length in Ht. apply contains_count in Hk.
  unfold get_config_suffix, NL, T2 in Ht. simpl in Ht. lia.
Qed.

Section ConfigHistory.

Context {conn : Type} `{!Engine conn}.

Lemma commit_history (fuel : nat) :
  ∀ db : DB conn, ∃ rest, history (commit fuel db).2 = history db ++ rest.
Proof.
  induction fuel as [|fuel IH]; intros db.
  - exists []. by rewrite app_nil_r.
  - destruct (conn_commit (db_conn db)) as [[e|] c1] eqn:Hc.
    + rewrite (commit_retry_step _ _ _ _ Hc).
      destruct (IH (retry_state c1 db)) as [rest ->]. simpl.
      eexists. by rewrite <- app_assoc.
    + rewrite (commit_ok_step _ _ _ Hc). simpl. by eexists.
Qed.

Lemma get_config_history (key : string) (db : DB conn) :
  history (get_config key db).2
  = history db ++ [CallExecute (get_config_query key) []].
Proof.
  unfold get_config, mbind, M_bind, execute.
  destruct (conn_execute _ _ _) as [[e|cur] c]; [done |].
  unfold fetchone. destruct (pending cur) as [|[|v r] rest]; done.
Qed.

Lemma set_config_history (fuel : nat) (key : string) (v : value) (db : DB conn) :
  ∃ rest, history (set_config fuel key v db).2
          = history db ++ CallExecute set_config_query [VText key; v] :: rest.
Proof.
  unfold set_config, mbind, M_bind, execute.
  destruct (conn_execute _ _ _) as [[e|cur] c]; [by exists [] |].
  match goal with |- context [commit fuel ?d] =>
    destruct (commit_history fuel d) as [rest Hrest] end.
  exists rest. destruct (commit fuel _) as [[[]| |] d']; simpl in *;
    rewrite Hrest; by rewrite <- app_assoc.
Qed.

End ConfigHistory.

(** What [dq_token] consumed spells its result: the text with its
    quotes doubled, then the closing quote, which no quote follows. *)
Lemma dq_token_spelling (n : nat) :
  ∀ s t r, String.length s ≤ n → dq_token s = Some (t, r) →
           s = double_quotes t +:+ String Str.dquote r
           ∧ String.get 0 r ≠ Some Str.dquote.
Proof.
  induction n as [|n IH]; intros s t r Hn; destruct s as [|a s]; simpl in *;
    try done; try lia.
  destruct (Ascii.eqb a Str.dquote) eqn:Ea.
  - apply Ascii.eqb_eq in Ea as ->. destruct s as [|b s]; simpl in *.
    + by intros [= <- <-].
    + destruct (Ascii.eqb b Str.dquote) eqn:Eb.
      * apply Ascii.eqb_eq in Eb as ->.
        destruct (dq_token s) as [[t' r']|] eqn:Et; [| done].
        intros [= <- <-]. apply IH in Et as [-> Hr]; [| lia]. by simpl.
      * intros [= <- <-]. simpl. split; [done |].
        intros [= ->]. by rewrite Ascii.eqb_refl in Eb.
  - destruct (dq_token s) as [[t' r']|] eqn:Et; [| done].
    intros [= <- <-]. apply IH in Et as [-> Hr]; [| lia]. simpl.
    by rewrite Ea.
Qed.

Lemma dq_token_doubled (t r : string) :
  String.get 0 r ≠ Some Str.dquote →
  dq_token (double_quotes t +:+ String Str.dquote r) = Some (t, r).
Proof.
  intros Hr. induction t as [|a t IH]; simpl.
  - destruct r as [|b r]; [done |]. simpl in Hr.
    destruct (Ascii.eqb b Str.dquote) eqn:Eb; [| done].
    apply Ascii.eqb_eq in Eb as ->. done.
  - destruct (Ascii.eqb a Str.dquote) eqn:Ea.
    + apply Ascii.eqb_eq in Ea as ->. simpl. by rewrite IH.
    + simpl. by rewrite Ea, IH.
Qed.

Lemma double_quotes_count (t : string) :
  Str.count Str.dquote (double_quotes t) = 2 * Str.count Str.dquote t.
Proof.
  induction t as [|a t IH]; simpl; [done |].
  destruct (Ascii.eqb a Str.dquote) eqn:Ea; simpl; rewrite ?Ea, IH; simpl; lia.
Qed.

(** Two ways of cutting one text in two. *)
Lemma append_eq_append (a b c d : string) :
  a +:+ b = c +:+ d →
  (∃ m, a = c +:+ m ∧ d = m +:+ b) ∨ (∃ m, c = a +:+ m ∧ b = m +:+ d).
Proof.
  revert c. induction a as [|x a IH]; intros c; simpl.
  - intros ->. right. by exists c.
  - destruct c as [|y c]; simpl.
    + intros <-. left. by exists (String x a).
    + intros [= -> H]. destruct (IH _ H) as [(m & -> & ->) | (m & -> & ->)].
      * left. by exists m.
      * right. by exists m.
Qed.

Lemma blank_app_quote (a b : string) :
  blank (a +:+ String Str.dquote b) = false.
Proof.
  induction a as [|x a IH]; simpl; [done |]. rewrite IH. apply andb_false_r.
Qed.

(** C8, as amended. [get_config] puts the key into the statement text,
    between double quotes, and binds nothing, where [set_config]
    executes one fixed text with key and value bound: different keys
    give different texts. A key without a double quote is read back by
    the engine as the operand of the comparison. A key with one never
    is: the statement keeps its shape, one operand and then blanks,
    exactly when the key is some text with its quotes doubled, and
    that text, not the key, is then the operand; in every other case
    the token closes inside the key and the rest of the key is read as
    SQL after the operand, or the token is not closed at all. *)
Theorem get_config_interpolates_key :
  ∀ {conn : Type} `{!Engine conn} (fuel : nat) (key key' : string) (v : value)
    (db : DB conn),
    history (get_config key db).2
      = history db ++ [CallExecute (get_config_query key) []]
    ∧ (∃ rest, history (set_config fuel key v db).2
               = history db ++ CallExecute set_config_query [VText key; v] :: rest)
    ∧ (key ≠ key' → get_config_query key ≠ get_config_query key')
    ∧ Str.count Str.dquote (get_config_query key)
      = 2 + Str.count Str.dquote key
    ∧ (Str.contains Str.dquote key = false →
       where_operand (get_config_query key) = Some (key, NL +:+ T2))
    ∧ (Str.contains Str.dquote key = true →
       where_operand (get_config_query key) ≠ Some (key, NL +:+ T2))
    ∧ (∀ t : string,
         where_operand (get_config_query key) = Some (t, NL +:+ T2)
         ↔ key = double_quotes t)
    ∧ (∀ t after : string,
         where_operand (get_config_query key) = Some (t, after) →
         (after = NL +:+ T2 ∧ key = double_quotes t)
         ∨ (blank after = false
            ∧ ∃ k2, key = double_quotes t +:+ String Str.dquote k2
                    ∧ after = k2 +:+ get_config_suffix)).
Proof.
  intros conn E fuel key key' v db.
  split; [apply get_config_history |].
  split; [apply set_config_history |].
  split.
  { intros Hne Heq. apply Hne. unfold get_config_query in Heq.
    apply append_inv_head in Heq. by apply append_inv_tail in Heq. }
  split.
  { unfold get_config_query. rewrite !count_app.
    assert (Str.count Str.dquote get_config_prefix = 1) as -> by reflexivity.
    assert (Str.count Str.dquote get_config_suffix = 1) as -> by reflexivity.
    lia. }
  unfold where_operand, get_config_query. rewrite strip_prefix_app.
  split; [apply dq_token_plain |]. split; [apply dq_token_quoted |].
  assert (∀ t after, dq_token (key +:+ get_config_suffix) = Some (t, after) →
            (after = NL +:+ T2 ∧ key = double_quotes t)
            ∨ (blank after = false
               ∧ ∃ k2, key = double_quotes t +:+ String Str.dquote k2
                       ∧ after = k2 +:+ get_config_suffix)) as Hcases.
  { intros t after Ht.
    apply (dq_token_spelling _ _ _ _ (le_n _)) in Ht as [Hs _].
    apply append_eq_append in Hs as [(m & Hk & Ha) | (m & Hk & Ha)].
    - destruct m as [|x m].
      + left. rewrite append_nil_r in Hk. simpl in Ha.
        unfold get_config_suffix in Ha. simpl in Ha. by injection Ha as ->.
      + right. simpl in Ha. injection Ha as <- ->. split.
        * unfold get_config_suffix. apply blank_app_quote.
        * by exists m.
    - destruct m as [|x m].
      + left. rewrite append_nil_r in Hk. simpl in Ha.
        unfold get_config_suffix in Ha. simpl in Ha. by injection Ha as <-.
      + exfalso. unfold get_config_suffix in Ha. simpl in Ha.
        injection Ha as <- Ha.
        apply (f_equal (Str.count Str.dquote)) in Ha.
        rewrite count_app in Ha. simpl in Ha. unfold NL, T2 in Ha.
        simpl in Ha. lia. }
  split; [| exact Hcases].
  intros t. split.
  - intros Ht. destruct (Hcases _ _ Ht) as [[_ Hk] | [Hb _]]; [done |].
    by vm_compute in Hb.
  - intros ->. unfold get_config_suffix. simpl. by apply dq_token_doubled.
Qed.

Lemma get_config_interpolates_key_witness :
  ("a" ≠ "b" ∧ get_config_query "a" ≠ get_config_query "b")
  ∧ (Str.contains Str.dquote "a" = false
     ∧ where_operand (get_config_query "a") = Some ("a", NL +:+ T2))
  ∧ (Str.contains Str.dquote quote_key = true
     ∧ where_operand (get_config_query quote_key) ≠ Some (quote_key, NL +:+ T2))
  ∧ (doubled_quote_key = double_quotes single_quote_key
     ∧ where_operand (get_config_query doubled_quote_key)
       = Some (single_quote_key, NL +:+ T2)).
Proof.
  pose proof (get_config_interpolates_key (conn := Canned.conn) 1 "a" "b" VNone
                (mkDB [] Stderr [] [] "" 0 [])) as (_ & _ & Hne & _ & Hplain & _).
  pose proof (get_config_interpolates_key (conn := Canned.conn) 1 quote_key "b"
                VNone (mkDB [] Stderr [] [] "" 0 []))
    as (_ & _ & _ & _ & _ & Hq & _).
  pose proof (get_config_interpolates_key (conn := Canned.conn) 1
                doubled_quote_key "b" VNone (mkDB [] Stderr [] [] "" 0 []))
    as (_ & _ & _ & _ & _ & _ & Hd & _).
  assert ("a" ≠ "b") as Hab by discriminate.
  split; [exact (conj Hab (Hne Hab)) |].
  split; [exact (conj eq_refl (Hplain eq_refl)) |].
  split; [exact (conj eq_refl (Hq eq_refl)) |].
  exact (conj eq_refl (proj2 (Hd single_quote_key) eq_refl)).
Defined.

(** C8 as stated fails at the key made of an [a], two double quotes
    and a [b]: it holds double quotes, yet the statement keeps the
    shape it has for a plain key, one quoted operand followed by
    blanks, and the engine looks up the key with one quote in place of
    the two: after [set_config] has stored ['v'] under that other key,
    [get_config] of the doubled key returns ['v']. *)
Lemma doubled_quote_keeps_structure :
  let db0 := mkDB ([] : ConfigDb.conn) Stderr [] [] "[t]" 0 [] in
  let db1 := (set_config 1 single_quote_key (VText "v") db0).2 in
  Str.contains Str.dquote doubled_quote_key = true
  ∧ where_operand (get_config_query "ab") = Some ("ab", NL +:+ T2)
  ∧ where_operand (get_config_query doubled_quote_key)
    = Some (single_quote_key, NL +:+ T2)
  ∧ db_conn db1 = [(single_quote_key, VText "v")]
  ∧ (get_config doubled_quote_key db1).1 = Return (VText "v")
  ∧ (get_config doubled_quote_key db0).1 = Return VNone.
Proof. repeat split; by vm_compute. Qed.

(** On keys without a double quote that name no column the config store
    of the model does what its docstrings say. *)
Lemma config_roundtrip_plain_key (k : string) (v v' : value) (tstamp : string) :
  Str.contains Str.dquote k = false →
  ConfigDb.names_column k = false →
  let db0 := mkDB ([] : ConfigDb.conn) Stderr [] [] tstamp 0 [] in
  let db1 := (set_config 1 k v db0).2 in
  let db2 := (set_config 1 k v' db1).2 in
  (get_config k db0).1 = Return VNone
  ∧ (get_config k db1).1 = Return v
  ∧ (get_config k db2).1 = Return v'
  ∧ db_conn db2 = [(k, v')].
Proof.
  intros Hk Hc db0 db1 db2.
  assert (∀ c h, (get_config k (mkDB (c : ConfigDb.conn) Stderr [] [] tstamp 0 h)).1
                 = match ConfigDb.lookup_rows k c with
                   | [] => Return VNone
                   | r :: _ => match r !! 0 with
                               | Some x => Return x
                               | None => Raise (IndexError "tuple index out of range")
                               end
                   end) as Hget.
  { intros c h. unfold get_config, mbind, M_bind, execute. cbn [db_conn].
    cbn [conn_execute ConfigDb.engine]. unfold ConfigDb.execute.
    rewrite bool_decide_eq_false_2.
    2:{ unfold get_config_query, set_config_query. intros Heq.
        apply (f_equal (λ s, String.get 4 s)) in Heq.
        unfold get_config_prefix, NL, T3 in Heq. simpl in Heq. discriminate. }
    unfold get_config_query. rewrite strip_prefix_app, dq_token_plain by done.
    rewrite Hc. cbn. unfold fetchone. cbn.
    destruct (ConfigDb.lookup_rows k c) as [|r rest]; [done |].
    cbn. unfold first_column. by destruct (r !! 0). }
  assert (db1 = mkDB [(k, v)] Stderr [] [] tstamp 0
                  [CallExecute set_config_query [VText k; v]; CallCommit true]) as E1
    by reflexivity.
  clearbody db1. subst db1.
  assert (db2 = mkDB (ConfigDb.upsert k v' [(k, v)]) Stderr [] [] tstamp 0
                  [CallExecute set_config_query [VText k; v]; CallCommit true;
                   CallExecute set_config_query [VText k; v']; CallCommit true]) as E2
    by reflexivity.
  clearbody db2. subst db2.
  assert (ConfigDb.upsert k v' [(k, v)] = [(k, v')]) as Hup.
  { unfold ConfigDb.upsert. rewrite filter_cons_False by (simpl; tauto). done. }
  rewrite Hup. unfold db0. cbn [db_conn]. rewrite !Hget. unfold ConfigDb.lookup_rows.
  rewrite !filter_cons_True by done. done.
Qed.

(** C7, evaluated at the key made of one double quote: the statement of
    [get_config] then holds an unclosed quoted token, the engine refuses
    it and [get_config] raises, before the key is set and after
    [set_config] has stored it. *)
Theorem get_config_quote_key_raises :
  let db0 := mkDB ([] : ConfigDb.conn) Stderr [] [] "[t]" 0 [] in
  let db1 := (set_config 1 quote_key (VText "v") db0).2 in
  where_operand (get_config_query quote_key) = None
  ∧ (get_config quote_key db0).1
    = Raise (SqliteError "OperationalError" "unrecognized token")
  ∧ (set_config 1 quote_key (VText "v") db0).1 = Return ()
  ∧ db_conn db1 = [(quote_key, VText "v")]
  ∧ (get_config quote_key db1).1
    = Raise (SqliteError "OperationalError" "unrecognized token").
Proof. repeat split; by vm_compute. Qed.

(** ** insert *)

Lemma words_space (a : ascii) (s : string) :
  Str.is_space a = true → words (String a s) = words s.
Proof. intros H. simpl. by rewrite H. Qed.





























(** A two-value insert into a three-column table, by its bare name, is
    refused. *)
Lemma insert_subset_refused :
  (insert (conn := Tables.conn) "sites" [VText "h"; VInt 1]
     (mkDB ({[ "sites" := (["host"; "available"; "message"], []) ]} : Tables.conn)
           Stderr [] [] "" 0 [])).1
  = Raise (SqliteError "OperationalError"
             "table has another number of columns than values supplied").
Proof. by vm_compute. Qed.


(** ** select_one *)





Section SelectOne.

Context {conn : Type} `{!Engine conn}.



End SelectOne.










(** * Further properties of [DB] *)

(** ** Column clauses and key clauses *)

Lemma scan_row_first_token (st : scan) (row : string) :
  scan_row st row =
    inr (if is_key_clause row || hit_keys st
         then mkScan true (rows st) (keys st ++ [row])
         else mkScan false (rows st ++ [column_line row]) (keys st)).
Proof.
  unfold scan_row, is_key_clause, column_line, first_token.
  pose proof (split_not_nil " " row) as Hne.
  destruct (Str.split " " row) as [|f0 fs]; [done |]. simpl.
  destruct (is_key_word (Str.lower f0)); simpl; [done |].
  by destruct (hit_keys st).
Qed.

Lemma scan_rows_in_keys (l : list string) :
  ∀ st, hit_keys st = true →
        scan_rows st l = inr (mkScan true (rows st) (keys st ++ l)).
Proof.
  induction l as [|row l IH]; intros st Hhit; simpl.
  - rewrite app_nil_r. by destruct st; simpl in *; subst.
  - rewrite scan_row_first_token, Hhit, orb_true_r.
    rewrite IH by done. simpl. by rewrite <- app_assoc.
Qed.

Lemma scan_rows_in_columns (l : list string) :
  ∀ st, hit_keys st = false → keys st = [] →
        ∃ pre suf st',
          scan_rows st l = inr st'
          ∧ l = pre ++ suf
          ∧ rows st' = rows st ++ (column_line <$> pre)
          ∧ keys st' = suf
          ∧ Forall (λ r, is_key_clause r = false) pre
          ∧ match suf with
            | [] => hit_keys st' = false
            | k :: _ => is_key_clause k = true ∧ hit_keys st' = true
            end.
Proof.
  induction l as [|row l IH]; intros st Hhit Hkeys; simpl.
  - exists [], [], st. simpl. rewrite !app_nil_r. by repeat split.
  - rewrite scan_row_first_token, Hhit, orb_false_r.
    destruct (is_key_clause row) eqn:Ek.
    + rewrite scan_rows_in_keys by done. simpl. rewrite Hkeys.
      exists [], (row :: l). eexists. split; [done |]. simpl.
      rewrite app_nil_r. by repeat split.
    + destruct (IH (mkScan false (rows st ++ [column_line row]) (keys st))
                  eq_refl Hkeys) as (pre & suf & st' & -> & -> & Hr & Hk & Hall & Hs).
      exists (row :: pre), suf, st'. simpl in *.
      rewrite Hr, <- app_assoc. repeat split; try done. by constructor.
Qed.

(** X1. The first loop of [create_table] cuts the comma-split clauses
    in two at the first clause whose first word, in lower case, is
    [primary] or [foreign]: the clauses before it become the column
    lines, in order, and that clause and every clause after it, whatever
    it says, are the key fragments. Nothing is dropped or reordered:
    the two parts glued back with commas are the schema text. *)
Theorem scan_schema_cuts_at_first_key_clause :
  ∀ schema : string,
    ∃ (pre : list string) (st : scan),
      scan_schema schema = inr st
      ∧ Str.split "," schema = pre ++ keys st
      ∧ rows st = column_line <$> pre
      ∧ Forall (λ r, is_key_clause r = false) pre
      ∧ match keys st with
        | [] => hit_keys st = false
        | k :: _ => is_key_clause k = true ∧ hit_keys st = true
        end
      ∧ Str.join "," (pre ++ keys st) = schema.
Proof.
  intros schema. unfold scan_schema.
  destruct (scan_rows_in_columns (Str.split "," schema) (mkScan false [] [])
              eq_refl eq_refl)
    as (pre & suf & st & Hscan & Hsplit & Hrows & Hkeys & Hall & Hhead).
  exists pre, st. rewrite Hkeys. simpl in Hrows.
  repeat split; try done.
  rewrite <- Hsplit. apply (join_split ","%char).
Qed.

Lemma first_token_blank (r : string) : first_token (String " " r) = "".
Proof. done. Qed.

Lemma scan_rows_all_columns (l : list string) :
  ∀ st, hit_keys st = false →
        Forall (λ r, is_key_clause r = false) l →
        scan_rows st l
          = inr (mkScan false (rows st ++ (column_line <$> l)) (keys st)).
Proof.
  induction l as [|row l IH]; intros st Hhit Hall; simpl.
  - rewrite app_nil_r. by destruct st; simpl in *; subst.
  - apply Forall_cons in Hall as [Hrow Hall].
    rewrite scan_row_first_token, Hhit, Hrow. simpl.
    rewrite IH by done. simpl. by rewrite <- app_assoc.
Qed.

(** The line made of a clause that begins with a blank: its first
    word is empty, so the line is the padding of 16 blanks, one blank
    and the rest of the clause stripped. *)
Lemma column_line_blank (r : string) :
  column_line (String " " r) = Str.spaces 16 +:+ " " +:+ Str.strip r.
Proof.
  unfold column_line, first_token.
  change (Str.split " " (String " " r)) with ("" :: Str.split " " r).
  change (drop 1 ("" :: Str.split " " r)) with (Str.split " " r).
  by rewrite (join_split " "%char).
Qed.

(** X2. A clause that begins with a blank has an empty first word and
    so never opens the key group: in a schema written with a blank
    after each comma, every clause after the first, a
    [primary key(...)] or [foreign key(...)] clause included, is
    compiled as a column line (16 blanks, a blank, the clause
    stripped). The key list stays empty, so the rejoin loop has nothing
    to run over and the statement is built without raising, whatever
    parentheses the clauses open or close. *)
Theorem blank_after_comma_hides_key_clauses :
  ∀ (table_name schema first : string) (rest : list string),
    Str.split "," schema = first :: (String " " <$> rest) →
    is_key_clause first = false →
    (∃ st, scan_schema schema = inr st ∧ keys st = [] ∧ hit_keys st = false)
    ∧ create_table_query table_name schema
      = Return (create_table_text table_name
                  (column_line first
                     :: ((λ r, Str.spaces 16 +:+ " " +:+ Str.strip r) <$> rest))
                  []).
Proof.
  intros table_name schema first rest Hsplit Hfirst.
  assert (scan_schema schema
          = inr (mkScan false
                   (column_line first
                      :: ((λ r, Str.spaces 16 +:+ " " +:+ Str.strip r) <$> rest))
                   [])) as Hscan.
  { unfold scan_schema. rewrite Hsplit.
    rewrite scan_rows_all_columns; [| done |].
    - simpl. do 3 f_equal. rewrite <- list_fmap_compose.
      apply list_fmap_ext. intros i r _. apply column_line_blank.
    - constructor; [done |]. apply Forall_fmap, Forall_true. by intros r. }
  split; [by eexists |].
  unfold create_table_query. by rewrite Hscan.
Qed.

Lemma blank_after_comma_hides_key_clauses_witness :
  Str.split "," "id integer, name text, primary key(id"
    = "id integer" :: (String " " <$> ["name text"; "primary key(id"])
  ∧ create_table_query "t" "id integer, name text, primary key(id"
    = Return (create_table_text "t"
                [ "              id integer";
                  "                 name text";
                  "                 primary key(id" ] [])
  ∧ create_table_query "t" "id integer,name text,primary key(id"
    = Raise (IndexError "pop index out of range").
Proof.
  split; [reflexivity |]. split; [| reflexivity].
  exact (proj2 (blank_after_comma_hides_key_clauses "t"
                  "id integer, name text, primary key(id" "id integer"
                  ["name text"; "primary key(id"] eq_refl eq_refl)).
Defined.

(** ** Index names *)

Lemma replace_char_app (a b : ascii) (s t : string) :
  replace_char a b (s +:+ t) = replace_char a b s +:+ replace_char a b t.
Proof. induction s as [|c s IH]; simpl; [done | by rewrite IH]. Qed.

Lemma replace_char_gone (a b : ascii) (s : string) :
  a ≠ b → Str.contains a (replace_char a b s) = false.
Proof.
  intros Hab. induction s as [|c s IH]; simpl; [done |].
  rewrite IH, orb_false_r.
  destruct (Ascii.eqb c a) eqn:Ec.
  - apply Ascii.eqb_neq. congruence.
  - done.
Qed.

Lemma replace_char_absent (a b : ascii) (s : string) :
  Str.contains a s = false → replace_char a b s = s.
Proof.
  induction s as [|c s IH]; simpl; [done |].
  intros [Hc Hs]%orb_false_iff. by rewrite Hc, IH.
Qed.

Lemma replace_char_length (a b : ascii) (s : string) :
  String.length (replace_char a b s) = String.length s.
Proof. induction s as [|c s IH]; simpl; [done | by rewrite IH]. Qed.

(** X3. The name [create_index] derives for an index holds no comma
    when the table name holds none, and it does not tell column lists
    apart: a list and the same text with its commas written as
    underscores get one name, and so do a table [t_u] with columns [k]
    and a table [t] with columns [u_k]. Under [create index if not
    exists] the second of two such indices is then not created. *)
Theorem index_name_collisions :
  ∀ (index u key : string),
    (Str.contains "," index = false →
     Str.contains "," (index_name index key) = false)
    ∧ index_name index key = index_name index (replace_char "," "_" key)
    ∧ index_name (index +:+ "_" +:+ replace_char "," "_" u) key
      = index_name index (u +:+ "_" +:+ key)
    ∧ String.length (index_name index key)
      = String.length index + 1 + String.length key.
Proof.
  intros index u key. unfold index_name. repeat split.
  - intros Hi. rewrite !contains_app, Hi, replace_char_gone by done. done.
  - f_equal. f_equal. symmetry. apply replace_char_absent.
    by apply replace_char_gone.
  - rewrite !replace_char_app, !append_assoc. done.
  - rewrite !append_length, replace_char_length. simpl. lia.
Qed.

Lemma index_name_collisions_witness :
  Str.contains "," "medias" = false
  ∧ Str.contains "," (index_name "medias" "albumid,i_index") = false
  ∧ index_name "medias" "albumid,i_index" = index_name "medias" "albumid_i_index".
Proof.
  pose proof (index_name_collisions "medias" "" "albumid,i_index")
    as (Hcomma & Hsame & _).
  split; [reflexivity |]. split; [exact (Hcomma eq_refl) | exact Hsame].
Defined.

(** ** One statement, no commit *)

Section Queries.

Context {conn : Type} `{!Engine conn}.

Lemma execute_state (q : string) (ps : list value) (db : DB conn) :
  (execute q ps db).2
  = mkDB (conn_execute q ps (db_conn db)).2 (logger db) (stderr_lines db)
         (sink_lines db) (now db) (slept_ms db)
         (history db ++ [CallExecute q ps]).
Proof.
  unfold execute. by destruct (conn_execute q ps (db_conn db)) as [[e|cur] c].
Qed.

Lemma execute_outcome (q : string) (ps : list value) (db : DB conn) :
  (execute q ps db).1 = of_sum (conn_execute q ps (db_conn db)).1.
Proof.
  unfold execute. by destruct (conn_execute q ps (db_conn db)) as [[e|cur] c].
Qed.

Lemma bind_execute_state {A} (q : string) (ps : list value)
  (k : cursor → M (DB conn) A) (db : DB conn) :
  (∀ cur d, (k cur d).2 = d) →
  ((execute q ps ≫= k) db).2 = (execute q ps db).2.
Proof.
  intros Hk. unfold mbind, M_bind.
  destruct (execute q ps db) as [[cur|e|] d]; [apply Hk | done | done].
Qed.

End Queries.

(** X4. [insert], [select], [select_one], [count], [delete], [update]
    and [get_config] each make exactly one call on the connection, the
    execution of their statement with the caller's parameters as given
    ([get_config] binds none), and never commit: whatever the outcome,
    the object is left as that one [execute] left it, with nothing
    logged and no sleep. *)
Theorem queries_execute_once_and_never_commit :
  ∀ {conn : Type} `{!Engine conn} (table what where_ changes key : string)
    (values : list value) (db : DB conn),
    (insert table values db).2
      = (execute (insert_query table values) values db).2
    ∧ (select what table where_ values db).2
      = (execute (select_query what table where_) values db).2
    ∧ (select_one what table where_ values db).2
      = (execute (select_query what table where_) values db).2
    ∧ (count table where_ values db).2
      = (execute (select_query "count(*)" table where_) values db).2
    ∧ (delete_ table where_ values db).2
      = (execute (delete_query table where_) values db).2
    ∧ (update table changes where_ values db).2
      = (execute (update_query table changes where_) values db).2
    ∧ (get_config key db).2 = (execute (get_config_query key) [] db).2
    ∧ ∀ q ps,
        history (execute q ps db).2 = history db ++ [CallExecute q ps]
        ∧ commits_ok (execute q ps db).2 = commits_ok db
        ∧ slept_ms (execute q ps db).2 = slept_ms db
        ∧ stderr_lines (execute q ps db).2 = stderr_lines db.
Proof.
  intros conn E table what where_ changes key values db.
  assert (∀ r : row, ∀ d : DB conn, (first_column r d).2 = d) as Hfc
    by (intros r d; unfold first_column; by destruct (r !! 0)).
  repeat split.
  - unfold insert. by apply bind_execute_state.
  - unfold select_one, select. apply bind_execute_state. intros cur d.
    destruct (fetchone cur); [apply Hfc | done].
  - unfold count, select. apply bind_execute_state. intros cur d.
    destruct (fetchone cur); [apply Hfc | done].
  - unfold delete_. by apply bind_execute_state.
  - unfold update. by apply bind_execute_state.
  - unfold get_config. apply bind_execute_state. intros cur d.
    destruct (fetchone cur); [apply Hfc | done].
  - by rewrite execute_state.
  - rewrite execute_state. unfold commits_ok. simpl.
    rewrite filter_app, length_app. simpl. lia.
  - by rewrite execute_state.
  - by rewrite execute_state.
Qed.

(** X5. What [commit] does on any connection, for as long as it is
    run: it only calls [conn.commit()], every failed attempt adds one
    log line on stderr and 100 ms of sleep, a success is the last call
    it makes, and when it has not returned every attempt so far has
    failed. It never raises. *)
Theorem commit_trace :
  ∀ {conn : Type} `{!Engine conn} (fuel : nat) (db : DB conn),
    ∃ n : nat,
      n ≤ fuel
      ∧ slept_ms (commit fuel db).2 = slept_ms db + 100 * n
      ∧ stderr_lines (commit fuel db).2
        = stderr_lines db
          ++ replicate n (debug_line (now db) "failed to commit, retrying...")
      ∧ history (commit fuel db).2
        = history db ++ replicate n (CallCommit false)
          ++ match (commit fuel db).1 with
             | Return _ => [CallCommit true]
             | _ => []
             end
      ∧ match (commit fuel db).1 with
        | Return _ => n < fuel
        | Raise _ => False
        | OutOfFuel => n = fuel
        end.
Proof.
  intros conn E fuel. induction fuel as [|fuel IH]; intros db.
  - exists 0. simpl. rewrite !app_nil_r. repeat split; lia.
  - destruct (conn_commit (db_conn db)) as [[e|] c1] eqn:Hc.
    + rewrite (commit_retry_step _ _ _ _ Hc).
      destruct (IH (retry_state c1 db)) as (n & Hn & Hs & Hl & Hh & Ho).
      exists (S n). rewrite Hs, Hl, Hh. simpl.
      rewrite <- !app_assoc. simpl.
      repeat split; try lia; try done.
      destruct (commit fuel (retry_state c1 db)).1; [lia | done | lia].
    + rewrite (commit_ok_step _ _ _ Hc). exists 0. simpl.
      rewrite !app_nil_r. repeat split; lia.
Qed.

(** X6. With no row to fetch the three readers differ: [select_one]
    raises its [Exception('no rows returned')], [count] fails with the
    [TypeError] of indexing [None], and [get_config] returns [None].
    With a row each returns its first column, and an error of the
    engine comes out of each unchanged. *)
Theorem reader_outcomes :
  ∀ {conn : Type} `{!Engine conn} (what table where_ key : string)
    (values : list value) (db : DB conn),
    let first (on_none : outcome value) (r : (exn + cursor) * conn) :=
      match r.1 with
      | inl e => Raise e
      | inr cur =>
          match pending cur with
          | [] => on_none
          | (v :: _) :: _ => Return v
          | [] :: _ => Raise (IndexError "tuple index out of range")
          end
      end in
    (select_one what table where_ values db).1
      = first (Raise (PyException "no rows returned"))
          (conn_execute (select_query what table where_) values (db_conn db))
    ∧ (count table where_ values db).1
      = first (Raise (TypeError "'NoneType' object has no attribute '__getitem__'"))
          (conn_execute (select_query "count(*)" table where_) values (db_conn db))
    ∧ (get_config key db).1
      = first (Return VNone)
          (conn_execute (get_config_query key) [] (db_conn db)).
Proof.
  intros conn E what table where_ key values db first. subst first.
  unfold select_one, count, select, get_config, mbind, M_bind, execute, fetchone.
  repeat split.
  - destruct (conn_execute (select_query what table where_) values (db_conn db))
      as [[e|cur] c]; simpl; [done |].
    by destruct (pending cur) as [|[|v r] rest].
  - destruct (conn_execute (select_query "count(*)" table where_) values (db_conn db))
      as [[e|cur] c]; simpl; [done |].
    by destruct (pending cur) as [|[|v r] rest].
  - destruct (conn_execute (get_config_query key) [] (db_conn db))
      as [[e|cur] c]; simpl; [done |].
    by destruct (pending cur) as [|[|v r] rest].
Qed.

(** ** Writers that commit *)

Section Writers.

Context {conn : Type} `{!Engine conn}.

(** [execute q ps ;; commit fuel], the body of [set_config],
    [create_index] and the end of [create_table]. *)
Lemma execute_then_commit (fuel : nat) (q : string) (ps : list value)
  (db : DB conn) :
  (∀ e c1, conn_execute q ps (db_conn db) = (inl e, c1) →
           (execute q ps ;; commit fuel) db = (Raise e, (execute q ps db).2))
  ∧ (∀ db', (execute q ps ;; commit fuel) db = (Return (), db') →
            executed db' = executed db ++ [q]
            ∧ commits_ok db' = S (commits_ok db))
  ∧ (∀ e db', (execute q ps ;; commit fuel) db = (Raise e, db') →
              ∃ c1, conn_execute q ps (db_conn db) = (inl e, c1)).
Proof.
  unfold mbind, M_bind. split; [| split].
  - intros e c1 Hex. unfold execute. by rewrite Hex.
  - intros db'.
    destruct (execute q ps db) as [[cur| |] d] eqn:Hex; [| done..].
    intros Hc. apply execute_effect in Hex as [Hex1 Hex2].
    apply commit_effect in Hc as [Hc1 Hc2]. split; congruence.
  - intros e db'. unfold execute.
    destruct (conn_execute q ps (db_conn db)) as [[e'|cur] c] eqn:Hex.
    + intros [= <- <-]. by eexists.
    + intros Hc. pose proof (commit_never_raises fuel
        (mkDB c (logger db) (stderr_lines db) (sink_lines db) (now db)
              (slept_ms db) (history db ++ [CallExecute q ps])) e) as Hnr.
      rewrite Hc in Hnr. done.
Qed.

End Writers.

(** X7. [set_config] binds key and value to its one fixed upsert
    statement. When the engine refuses the statement, [set_config]
    raises that error and has not committed; that is the only way it
    raises. When it returns, it has executed the upsert once and made
    exactly one successful commit after it. *)
Theorem set_config_upserts_then_commits :
  ∀ {conn : Type} `{!Engine conn} (fuel : nat) (key : string) (v : value)
    (db : DB conn),
    (∀ e c1, conn_execute set_config_query [VText key; v] (db_conn db)
             = (inl e, c1) →
             set_config fuel key v db
             = (Raise e, (execute set_config_query [VText key; v] db).2)
             ∧ commits_ok (set_config fuel key v db).2 = commits_ok db)
    ∧ (∀ db', set_config fuel key v db = (Return (), db') →
              executed db' = executed db ++ [set_config_query]
              ∧ commits_ok db' = S (commits_ok db))
    ∧ (∀ e db', set_config fuel key v db = (Raise e, db') →
                ∃ c1, conn_execute set_config_query [VText key; v] (db_conn db)
                      = (inl e, c1)).
Proof.
  intros conn E fuel key v db.
  destruct (execute_then_commit fuel set_config_query [VText key; v] db)
    as (Href & Hret & Hraise).
  unfold set_config. split; [| by split].
  intros e c1 Hex. rewrite (Href e c1 Hex). split; [done |]. simpl.
  rewrite execute_state. unfold commits_ok. simpl.
  rewrite filter_app, length_app. simpl. lia.
Qed.

Lemma set_config_upserts_then_commits_witness :
  ∃ db', set_config (conn := ConfigDb.conn) 1 "a" (VText "b")
           (mkDB [] Stderr [] [] "" 0 [])
         = (Return (), db')
         ∧ executed db' = [set_config_query]
         ∧ commits_ok db' = 1.
Proof.
  exists (set_config (conn := ConfigDb.conn) 1 "a" (VText "b")
            (mkDB [] Stderr [] [] "" 0 [])).2.
  assert (set_config (conn := ConfigDb.conn) 1 "a" (VText "b")
            (mkDB [] Stderr [] [] "" 0 [])
          = (Return (),
             (set_config (conn := ConfigDb.conn) 1 "a" (VText "b")
                (mkDB [] Stderr [] [] "" 0 [])).2)) as H by reflexivity.
  split; [exact H |].
  exact (proj1 (proj2 (set_config_upserts_then_commits (conn := ConfigDb.conn)
                         1 "a" (VText "b") (mkDB [] Stderr [] [] "" 0 [])))
           _ H).
Defined.


(** ** Refused statements *)

Section Refusals.

Context {conn : Type} `{!Engine conn}.

Lemma create_table_raises (fuel : nat) (table_name schema : string)
  (db db' : DB conn) (e : exn) :
  create_table fuel table_name schema db = (Raise e, db') →
  (create_table_query table_name schema = Raise e ∧ db' = db)
  ∨ (∃ q c1, create_table_query table_name schema = Return q
             ∧ conn_execute q [] (db_conn db) = (inl e, c1)
             ∧ executed db' = executed db ++ [q]
             ∧ commits_ok db' = commits_ok db).
Proof.
  unfold create_table. unfold mbind at 1. unfold M_bind at 1.
  destruct (create_table_query table_name schema) as [q|e'|] eqn:Hq.
  - intros Hr. right.
    destruct (execute_then_commit fuel q [] db) as (_ & _ & Hraise).
    destruct (Hraise e db' Hr) as [c1 Hex]. exists q, c1.
    destruct (execute_then_commit fuel q [] db) as (Href & _ & _).
    rewrite (Href e c1 Hex) in Hr. injection Hr as <-.
    repeat split; try done.
    + unfold executed. rewrite execute_state. simpl. by rewrite omap_app.
    + unfold commits_ok. rewrite execute_state. simpl.
      rewrite filter_app, length_app. simpl. lia.
  - intros [= <- <-]. by left.
  - done.
Qed.

Lemma create_index_raises (fuel : nat) (index key : string)
  (name : option string) (db db' : DB conn) (e : exn) :
  create_index fuel index key name db = (Raise e, db') →
  ∃ c1, conn_execute
          (create_index_query (default (index_name index key) name) index key)
          [] (db_conn db) = (inl e, c1)
        ∧ executed db' =
            executed db
            ++ [create_index_query (default (index_name index key) name) index key]
        ∧ commits_ok db' = commits_ok db.
Proof.
  unfold create_index. intros Hr.
  set (q := create_index_query _ index key) in *.
  destruct (execute_then_commit fuel q [] db) as (Href & _ & Hraise).
  destruct (Hraise e db' Hr) as [c1 Hex]. exists c1.
  rewrite (Href e c1 Hex) in Hr. injection Hr as <-.
  repeat split; try done.
  - unfold executed. rewrite execute_state. simpl. by rewrite omap_app.
  - unfold commits_ok. rewrite execute_state. simpl.
    rewrite filter_app, length_app. simpl. lia.
Qed.

(** A loop that raises has run its body to the end on the items before
    the one that raised. *)
Lemma for_each_raises {A} (body : A → M (DB conn) ()) (e : exn) :
  ∀ (l : list A) (db db' : DB conn),
    for_each l body db = (Raise e, db') →
    ∃ l1 x l2 d, l = l1 ++ x :: l2
                 ∧ for_each l1 body db = (Return (), d)
                 ∧ body x d = (Raise e, db').
Proof.
  induction l as [|x l IH]; intros db db'; simpl; [done |].
  unfold mbind, M_bind.
  destruct (body x db) as [[[]|e'|] d] eqn:Hb.
  - intros Hl. destruct (IH _ _ Hl) as (l1 & y & l2 & d' & -> & Hl1 & Hy).
    exists (x :: l1), y, l2, d'. simpl. unfold mbind, M_bind.
    rewrite Hb. by repeat split.
  - intros [= <- <-]. exists [], x, l, db. by repeat split.
  - done.
Qed.

End Refusals.

(** X8. [create_table] raises in two ways only: the [IndexError] of the
    key loop, with nothing sent to the connection, or the error with
    which the engine refused the compiled statement. [create_index]
    raises only what the engine raised on its statement. In both, a
    refused statement is not followed by a commit. *)
Theorem ddl_raises_without_commit :
  ∀ {conn : Type} `{!Engine conn} (fuel : nat) (table_name schema index key : string)
    (name : option string) (db db' : DB conn) (e : exn),
    (create_table fuel table_name schema db = (Raise e, db') →
     (create_table_query table_name schema = Raise e ∧ db' = db)
     ∨ (∃ q c1, create_table_query table_name schema = Return q
                ∧ conn_execute q [] (db_conn db) = (inl e, c1)
                ∧ executed db' = executed db ++ [q]
                ∧ commits_ok db' = commits_ok db))
    ∧ (create_index fuel index key name db = (Raise e, db') →
       ∃ c1, conn_execute
               (create_index_query (default (index_name index key) name) index key)
               [] (db_conn db) = (inl e, c1)
             ∧ executed db' =
                 executed db
                 ++ [create_index_query (default (index_name index key) name)
                       index key]
             ∧ commits_ok db' = commits_ok db).
Proof.
  intros conn E fuel table_name schema index key name db db' e.
  split; [apply create_table_raises | apply create_index_raises].
Qed.

Lemma ddl_raises_without_commit_witness :
  ∃ db', create_index (conn := Refusing.conn) 1 "config" "key" None
           (mkDB 0 Stderr [] [] "" 0 [])
         = (Raise Refusing.full, db')
         ∧ commits_ok db' = 0.
Proof.
  exists (create_index (conn := Refusing.conn) 1 "config" "key" None
            (mkDB 0 Stderr [] [] "" 0 [])).2.
  assert (create_index (conn := Refusing.conn) 1 "config" "key" None
            (mkDB 0 Stderr [] [] "" 0 [])
          = (Raise Refusing.full,
             (create_index (conn := Refusing.conn) 1 "config" "key" None
                (mkDB 0 Stderr [] [] "" 0 [])).2)) as H by reflexivity.
  split; [exact H |].
  destruct (proj2 (ddl_raises_without_commit (conn := Refusing.conn) 1 "" ""
                     "config" "key" None (mkDB 0 Stderr [] [] "" 0 []) _
                     Refusing.full) H) as (c1 & _ & _ & Hc).
  exact Hc.
Defined.

Section Traces.

Context {conn : Type} `{!Engine conn}.

Lemma effective_app (h1 h2 : list call) :
  effective (h1 ++ h2) = effective h1 ++ effective h2.
Proof. unfold effective. by rewrite filter_app. Qed.

Lemma effective_failed (n : nat) : effective (replicate n (CallCommit false)) = [].
Proof.
  unfold effective. induction n as [|n IH]; [done |]. simpl.
  by rewrite filter_cons_False by (simpl; done).
Qed.

(** A [commit] that returns has made its failed attempts first and the
    successful one last. *)
Lemma commit_returns_history (fuel : nat) :
  ∀ db db' : DB conn,
    commit fuel db = (Return (), db') →
    ∃ n, history db' =
           history db ++ replicate n (CallCommit false) ++ [CallCommit true].
Proof.
  induction fuel as [|fuel IH]; intros db db'; [done |].
  destruct (conn_commit (db_conn db)) as [[e|] c1] eqn:Hc.
  - rewrite (commit_retry_step _ _ _ _ Hc). intros H.
    destruct (IH _ _ H) as [n ->]. exists (S n). simpl.
    by rewrite <- app_assoc.
  - rewrite (commit_ok_step _ _ _ Hc). intros [= <-]. by exists 0.
Qed.

(** The two calls of a statement that is executed and then committed:
    the statement first, then the commit attempts. *)
Lemma statement_history (fuel : nat) (q : string) (ps : list value)
  (db db' : DB conn) :
  (execute q ps ;; commit fuel) db = (Return (), db') →
  ∃ n, history db' =
         history db ++ CallExecute q ps
           :: replicate n (CallCommit false) ++ [CallCommit true].
Proof.
  unfold mbind, M_bind.
  destruct (execute q ps db) as [[cur| |] d] eqn:Hex; [| done..].
  intros Hc. apply commit_returns_history in Hc as [n ->]. exists n.
  pose proof (execute_state q ps db) as Hd. rewrite Hex in Hd. simpl in Hd.
  rewrite Hd. simpl. by rewrite <- app_assoc.
Qed.

Lemma statement_effective (h : list call) (q : string) (n : nat) :
  effective (h ++ CallExecute q []
               :: replicate n (CallCommit false) ++ [CallCommit true])
  = effective h ++ committed_statement q.
Proof.
  rewrite effective_app. f_equal.
  change (CallExecute q [] :: replicate n (CallCommit false) ++ [CallCommit true])
    with ([CallExecute q []] ++ replicate n (CallCommit false) ++ [CallCommit true]).
  by rewrite !effective_app, effective_failed.
Qed.

Lemma create_table_history (fuel : nat) (table_name schema : string)
  (db db' : DB conn) :
  create_table fuel table_name schema db = (Return (), db') →
  ∃ q n, create_table_query table_name schema = Return q
         ∧ history db' =
             history db ++ CallExecute q []
               :: replicate n (CallCommit false) ++ [CallCommit true].
Proof.
  unfold create_table. unfold mbind at 1. unfold M_bind at 1.
  destruct (create_table_query table_name schema) as [q| |]; [| done..].
  intros Hr. apply statement_history in Hr as [n Hn]. by exists q, n.
Qed.

Lemma create_index_history (fuel : nat) (index key : string)
  (name : option string) (db db' : DB conn) :
  create_index fuel index key name db = (Return (), db') →
  ∃ n, history db' =
         history db
         ++ CallExecute
              (create_index_query (default (index_name index key) name) index key)
              []
            :: replicate n (CallCommit false) ++ [CallCommit true].
Proof. unfold create_index. apply statement_history. Qed.

Lemma for_each_effective {A} (body : A → M (DB conn) ()) (stmt : A → string) :
  (∀ x db db', body x db = (Return (), db') →
               effective (history db')
               = effective (history db) ++ committed_statement (stmt x)) →
  ∀ (l : list A) (db db' : DB conn),
    for_each l body db = (Return (), db') →
    effective (history db')
    = effective (history db) ++ flat_map committed_statement (stmt <$> l).
Proof.
  intros Hbody. induction l as [|x l IH]; intros db db'; simpl.
  - intros [= <-]. by rewrite app_nil_r.
  - unfold mbind, M_bind.
    destruct (body x db) as [[[]| |] db1] eqn:Hb; [| done..].
    intros Hl. rewrite (IH _ _ Hl), (Hbody _ _ _ Hb).
    by rewrite <- app_assoc.
Qed.

Lemma create_table_effective (fuel : nat) (kv : string * string)
  (db db' : DB conn) :
  create_table fuel kv.1 kv.2 db = (Return (), db') →
  effective (history db')
  = effective (history db) ++ committed_statement (table_statement kv).
Proof.
  intros Hb. apply create_table_history in Hb as (q & n & Hq & ->).
  unfold table_statement. rewrite Hq. apply statement_effective.
Qed.

Lemma create_index_effective (fuel : nat) (kv : string * string)
  (db db' : DB conn) :
  create_index fuel kv.1 kv.2 None db = (Return (), db') →
  effective (history db')
  = effective (history db) ++ committed_statement (index_statement kv).
Proof.
  intros Hb. apply create_index_history in Hb as (n & ->).
  apply statement_effective.
Qed.

(** A refused statement is the last call. *)
Lemma create_table_refused_history (fuel : nat) (table_name schema : string)
  (db db' : DB conn) (e : exn) (q : string) :
  create_table_query table_name schema = Return q →
  create_table fuel table_name schema db = (Raise e, db') →
  history db' = history db ++ [CallExecute q []].
Proof.
  intros Hq. unfold create_table. unfold mbind at 1. unfold M_bind at 1.
  rewrite Hq. intros Hr.
  destruct (execute_then_commit fuel q [] db) as (Href & _ & Hraise).
  destruct (Hraise e db' Hr) as [c1 Hex].
  rewrite (Href e c1 Hex) in Hr. injection Hr as <-.
  by rewrite execute_state.
Qed.

Lemma create_index_refused_history (fuel : nat) (index key : string)
  (name : option string) (db db' : DB conn) (e : exn) :
  create_index fuel index key name db = (Raise e, db') →
  history db' =
    history db
    ++ [CallExecute
          (create_index_query (default (index_name index key) name) index key)
          []].
Proof.
  unfold create_index. intros Hr.
  set (q := create_index_query _ index key) in *.
  destruct (execute_then_commit fuel q [] db) as (Href & _ & Hraise).
  destruct (Hraise e db' Hr) as [c1 Hex].
  rewrite (Href e c1 Hex) in Hr. injection Hr as <-.
  by rewrite execute_state.
Qed.

End Traces.

Section InitRefusal.

Context {conn : Type} `{!Engine conn}.

Lemma create_table_stmt_effect (fuel : nat) (kv : string * string)
  (db db' : DB conn) :
  create_table fuel kv.1 kv.2 db = (Return (), db') →
  executed db' = executed db ++ [table_statement kv]
  ∧ commits_ok db' = S (commits_ok db).
Proof.
  intros Hb. apply create_table_effect in Hb as (q & Hq & ? & ?).
  unfold table_statement. by rewrite Hq.
Qed.

Lemma init_tail_raises (fuel : nat) (tables indices : list (string * string))
  (db1 db' : DB conn) (e : exn) :
  Forall (λ kv, Is_true (match create_table_query kv.1 kv.2 with
                         | Return _ => true
                         | _ => false
                         end)) tables →
  history db1 = [] →
  (for_each tables (λ kv, create_table fuel kv.1 kv.2) ;;
   for_each indices (λ kv, create_index fuel kv.1 kv.2 None) ;;
   commit fuel) db1 = (Raise e, db') →
  ∃ (done : list string) (q : string) (rest : list string) (c0 c1 : conn),
    init_statements tables indices = done ++ q :: rest
    ∧ conn_execute q [] c0 = (inl e, c1)
    ∧ effective (history db')
      = flat_map committed_statement done ++ [CallExecute q []]
    ∧ executed db' = done ++ [q]
    ∧ commits_ok db' = length done.
Proof.
  intros Hcompile Hh1. unfold init_statements.
  assert (executed db1 = [] ∧ commits_ok db1 = 0) as [He1 Hk1]
    by (unfold executed, commits_ok; by rewrite Hh1).
  assert (effective (history db1) = []) as Hf1 by (by rewrite Hh1).
  unfold mbind at 1. unfold M_bind at 1.
  destruct (for_each tables _ db1) as [[[]|e'|] db2] eqn:Ht.
  - pose proof Ht as Ht'.
    apply (for_each_effect _ table_statement) in Ht as [Ht1 Ht2];
      [| intros x0 d0 d0' Hb0; exact (create_table_stmt_effect fuel x0 d0 d0' Hb0)].
    apply (for_each_effective _ table_statement) in Ht';
      [| intros x0 d0 d0' Hb0; exact (create_table_effective fuel x0 d0 d0' Hb0)].
    unfold mbind at 1. unfold M_bind at 1.
    destruct (for_each indices _ db2) as [[[]|e'|] db3] eqn:Hi.
    + intros Hc. pose proof (commit_never_raises fuel db3 e) as Hnr.
      by rewrite Hc in Hnr.
    + intros [= <- <-].
      apply for_each_raises in Hi as (l1 & x & l2 & d & -> & Hl1 & Hx).
      pose proof Hl1 as Hl1'.
      apply (for_each_effect _ index_statement) in Hl1 as [Hl11 Hl12];
        [| intros [t k] ? ? Hb; by apply create_index_effect in Hb].
      apply (for_each_effective _ index_statement) in Hl1';
        [| intros x0 d0 d0' Hb0; exact (create_index_effective fuel x0 d0 d0' Hb0)].
      pose proof (create_index_refused_history _ _ _ _ _ _ _ Hx) as Hxh.
      apply create_index_raises in Hx as (c1 & Hex & Hx1 & Hx2).
      exists ((table_statement <$> tables) ++ (index_statement <$> l1)),
             (index_statement x), (index_statement <$> l2), (db_conn d), c1.
      rewrite Hx1, Hx2, Hl11, Hl12, Ht1, Ht2, He1, Hk1.
      rewrite Hxh, effective_app, Hl1', Ht', Hf1.
      rewrite fmap_app, length_app, !length_fmap, flat_map_app. simpl.
      rewrite <- !app_assoc. repeat split; try done. lia.
    + done.
  - intros [= <- <-].
    apply for_each_raises in Ht as (l1 & x & l2 & d & -> & Hl1 & Hx).
    pose proof Hl1 as Hl1'.
    apply (for_each_effect _ table_statement) in Hl1 as [Hl11 Hl12];
      [| intros x0 d0 d0' Hb0; exact (create_table_stmt_effect fuel x0 d0 d0' Hb0)].
    apply (for_each_effective _ table_statement) in Hl1';
      [| intros x0 d0 d0' Hb0; exact (create_table_effective fuel x0 d0 d0' Hb0)].
    apply Forall_app in Hcompile as [_ [Hxc _]%Forall_cons].
    pose proof Hx as Hx'.
    apply create_table_raises in Hx as [[Hq _] | (q & c1 & Hq & Hex & Hx1 & Hx2)].
    { by rewrite Hq in Hxc. }
    apply (create_table_refused_history _ _ _ _ _ _ _ Hq) in Hx'.
    exists (table_statement <$> l1), q,
           ((table_statement <$> l2) ++ (index_statement <$> indices)),
           (db_conn d), c1.
    assert (table_statement x = q) as Hts
      by (unfold table_statement; by rewrite Hq).
    rewrite Hx1, Hx2, Hl11, Hl12, He1, Hk1.
    rewrite Hx', effective_app, Hl1', Hf1.
    rewrite fmap_app, fmap_cons, Hts, length_fmap. simpl.
    rewrite <- !app_assoc. by repeat split.
  - done.
Qed.

End InitRefusal.

(** X9. Once [sqlite3.connect] has returned the connection, and in
    whatever order the two dicts are walked, constructing the object
    fails only when the engine refuses one of its statements: the
    declared schemas all compile and [commit] never raises. It then
    stops at once with the engine's error: the calls that went through
    are the statements before the refused one, in the order of the
    walk, each followed by its successful commit, and the refused
    statement is the last call. *)
Theorem init_stops_at_first_refusal :
  ∀ {conn : Type} `{!Engine conn} (fuel : nat) (DB_FILE : string)
    (file_exists : bool) (tables indices : list (string * string))
    (c : conn) (tstamp : string) (db' : DB conn) (e : exn),
    dict_order SCHEMA tables →
    dict_order INDICES indices →
    __init__ fuel DB_FILE file_exists tables indices c tstamp = (Raise e, db') →
    ∃ (done : list string) (q : string) (rest : list string) (c0 c1 : conn),
      init_statements tables indices = done ++ q :: rest
      ∧ conn_execute q [] c0 = (inl e, c1)
      ∧ effective (history db')
        = flat_map committed_statement done ++ [CallExecute q []]
      ∧ executed db' = done ++ [q]
      ∧ commits_ok db' = length done.
Proof.
  intros conn E fuel DB_FILE file_exists tables indices c tstamp db' e Ht Hi.
  pose proof (schema_compiles tables Ht) as Hcompile.
  unfold __init__, init_body.
  set (db0 := mkDB c Stderr [] [] tstamp 0 []).
  set (msg := if file_exists then _ else _).
  unfold mbind at 1. unfold M_bind at 1.
  assert (∃ db1, msg db0 = (Return (), db1) ∧ history db1 = []) as
    (db1 & -> & Hh1).
  { subst msg. destruct file_exists;
      match goal with
      | |- context [debug ?t db0] =>
          destruct (debug_effect t db0) as (d & ? & ?); eauto
      end. }
  by apply init_tail_raises.
Qed.

Lemma init_stops_at_first_refusal_witness :
  dict_order SCHEMA SCHEMA_items
  ∧ dict_order INDICES INDICES_kept
  ∧ ∃ db', __init__ (conn := Refusing.conn) 1 "database.db" true
             SCHEMA_items INDICES_kept 7 "[t]"
           = (Raise Refusing.full, db')
           ∧ ∃ done q rest,
               init_statements SCHEMA_items INDICES_kept = done ++ q :: rest
               ∧ length done = 7
               ∧ effective (history db')
                 = flat_map committed_statement done ++ [CallExecute q []].
Proof.
  assert (dict_order SCHEMA SCHEMA_items) as Ht
    by (unfold dict_order; apply (bool_decide_unpack _); vm_compute; reflexivity).
  assert (dict_order INDICES INDICES_kept) as Hi
    by (unfold dict_order; apply (bool_decide_unpack _); vm_compute; reflexivity).
  split; [exact Ht |]. split; [exact Hi |].
  exists (__init__ (conn := Refusing.conn) 1 "database.db" true
            SCHEMA_items INDICES_kept 7 "[t]").2.
  assert (__init__ (conn := Refusing.conn) 1 "database.db" true
            SCHEMA_items INDICES_kept 7 "[t]"
          = (Raise Refusing.full,
             (__init__ (conn := Refusing.conn) 1 "database.db" true
                SCHEMA_items INDICES_kept 7 "[t]").2))
    as H by (vm_compute; reflexivity).
  split; [exact H |].
  destruct (@init_stops_at_first_refusal Refusing.conn Refusing.engine 1
              "database.db" true SCHEMA_items INDICES_kept 7 "[t]" _
              Refusing.full Ht Hi H)
    as (done & q & rest & c0 & c1 & H1 & _ & H2 & _ & H3).
  assert (commits_ok (__init__ (conn := Refusing.conn) 1 "database.db" true
                        SCHEMA_items INDICES_kept 7 "[t]").2 = 7) as H7
    by (vm_compute; reflexivity).
  exists done, q, rest.
  exact (conj H1 (conj (eq_trans (eq_sym H3) H7) H2)).
Defined.


(** * [Httpy.between] *)

Lemma prefix_length (a s : string) :
  String.prefix a s = true → String.length a ≤ String.length s.
Proof.
  revert a. induction s as [|y s IH]; intros [|x a]; simpl; try done; try lia.
  destruct (ascii_dec x y); [| done].
  intros H%IH. lia.
Qed.

Lemma prefix_nil_r (a : string) : String.prefix a "" = true → a = "".
Proof. by destruct a. Qed.

Lemma find_first_eq (sub s : string) :
  find_first sub s =
    if String.prefix sub s then Some 0
    else
      match s with
      | EmptyString => None
      | String _ s' =>
          match find_first sub s' with
          | Some k => Some (S k)
          | None => None
          end
      end.
Proof. by destruct s. Qed.

Lemma find_first_bound (sub s : string) (k : nat) :
  find_first sub s = Some k → k + String.length sub ≤ String.length s.
Proof.
  revert k. induction s as [|c s IH]; intros k; rewrite find_first_eq.
  - destruct (String.prefix sub "") eqn:Hp; [| done].
    intros [= <-]. apply prefix_length in Hp. simpl in *. lia.
  - destruct (String.prefix sub (String c s)) eqn:Hp.
    + intros [= <-]. apply prefix_length in Hp. simpl in *. lia.
    + destruct (find_first sub s) as [k'|]; [| done].
      intros [= <-]. specialize (IH k' eq_refl). simpl. lia.
Qed.

Lemma drop_chars_length (n : nat) (s : string) :
  String.length (drop_chars n s) = String.length s - n.
Proof.
  revert s. induction n as [|n IH]; intros s; simpl; [lia |].
  destruct s as [|c s]; simpl; [done | apply IH].
Qed.

(** What [find] can answer. *)
Lemma py_find_range (s sub : string) (start : Z) :
  py_find s sub start = (-1)%Z
  ∨ (0 ≤ py_find s sub start
     ∧ py_find s sub start + Z.of_nat (String.length sub)
       ≤ Z.of_nat (String.length s)
     ∧ (0 ≤ start → start ≤ py_find s sub start))%Z.
Proof.
  unfold py_find.
  set (n := Z.of_nat (String.length s)).
  set (st := if (start <? 0)%Z then Z.max 0 (start + n) else start).
  assert (0 ≤ st ∧ (0 ≤ start → st = start))%Z as [Hst Hst'].
  { subst st. destruct (start <? 0)%Z eqn:E; lia. }
  destruct (n <? st)%Z eqn:En; [by left |].
  destruct (find_first sub (drop_chars (Z.to_nat st) s)) as [k|] eqn:Hk;
    [| by left].
  right. apply find_first_bound in Hk. rewrite drop_chars_length in Hk.
  subst n. split; [lia |]. split; [lia |]. intros H. rewrite <- (Hst' H). lia.
Qed.

Lemma length_pos (s : string) : s ≠ "" → 1 ≤ String.length s.
Proof. destruct s; [done | simpl; lia]. Qed.

Section Between.

Variables source start finish : string.

Let n : Z := Z.of_nat (String.length source).
Let ls : Z := Z.of_nat (String.length start).
Let lf : Z := Z.of_nat (String.length finish).

(** With a delimiter that is not empty every turn moves [j] forward, so
    the loop ends before the fuel does. *)
Lemma between_loop_returns (fuel : nat) :
  start ≠ "" ∨ finish ≠ "" →
  ∀ (result : list string) (i j : Z),
    (0 ≤ j → j + lf ≤ n)%Z →
    1 ≤ fuel →
    ((0 ≤ i)%Z → (0 ≤ j)%Z → Z.to_nat (n - j) + 2 ≤ fuel) →
    ∃ l, between_loop fuel source start finish result i j = Return l.
Proof.
  intros Hne.
  assert (1 ≤ ls + lf)%Z as Hpos.
  { subst ls lf. destruct Hne as [H%length_pos | H%length_pos]; lia. }
  induction fuel as [|fuel IH]; intros result i j Hj Hfuel Hm; [lia |].
  cbn [between_loop].
  destruct ((0 <=? i)%Z && (0 <=? j)%Z) eqn:Hc; [| by eexists].
  apply andb_true_iff in Hc as [Hi0%Z.leb_le Hj0%Z.leb_le].
  specialize (Hm Hi0 Hj0). specialize (Hj Hj0).
  fold lf ls.
  set (i2 := py_find source start (j + lf)).
  set (j2 := py_find source finish (i2 + ls)).
  pose proof (py_find_range source start (j + lf)) as Hi2.
  pose proof (py_find_range source finish (i2 + ls)) as Hj2.
  fold i2 in Hi2. fold j2 in Hj2. fold n lf ls in Hi2, Hj2.
  apply IH; lia.
Qed.

Lemma prefix_take (sub t : string) (m : nat) :
  String.prefix sub (take_chars m t) = true → String.prefix sub t = true.
Proof.
  revert sub m. induction t as [|c t IH]; intros [|x sub] [|m]; simpl; try done.
  destruct (ascii_dec x c); [| done]. apply IH.
Qed.

Lemma find_first_take_none (sub t : string) (k : nat) :
  sub ≠ "" → find_first sub t = Some k →
  find_first sub (take_chars k t) = None.
Proof.
  intros Hne. revert k. induction t as [|c t IH]; intros k;
    rewrite find_first_eq.
  - destruct (String.prefix sub "") eqn:Hp; [| done].
    by apply prefix_nil_r in Hp.
  - destruct (String.prefix sub (String c t)) eqn:Hp.
    + intros [= <-]. cbn [take_chars]. rewrite find_first_eq.
      destruct (String.prefix sub "") eqn:Hp0; [| done].
      by apply prefix_nil_r in Hp0.
    + destruct (find_first sub t) as [k'|] eqn:Hk; [| done].
      intros [= <-]. cbn [take_chars]. rewrite find_first_eq.
      destruct (String.prefix sub (String c (take_chars k' t))) eqn:Hp1.
      * apply (prefix_take sub (String c t) (S k')) in Hp1. congruence.
      * by rewrite IH.
Qed.

(** The text between a [start] found at [i] and the [finish] found
    after it holds no [finish]. *)
Lemma slice_without_finish (i : Z) :
  finish ≠ "" → (0 ≤ i)%Z →
  (0 ≤ py_find source finish (i + ls))%Z →
  find_first finish
    (py_slice source (i + ls) (py_find source finish (i + ls))) = None.
Proof.
  intros Hne Hi Hj.
  pose proof (py_find_range source finish (i + ls)) as Hr.
  fold n lf in Hr. destruct Hr as [Hr | (_ & Hup & Hlow)]; [lia |].
  assert (0 ≤ i + ls)%Z as Ha by (subst ls; lia). specialize (Hlow Ha).
  revert Hj Hup Hlow. unfold py_find. fold n.
  rewrite (proj2 (Z.ltb_ge (i + ls) 0)) by lia.
  destruct (n <? i + ls)%Z eqn:En; [lia |].
  destruct (find_first finish (drop_chars (Z.to_nat (i + ls)) source))
    as [k|] eqn:Hk; [| lia].
  intros Hj Hup Hlow. unfold py_slice, slice_bound. fold n.
  rewrite (proj2 (Z.ltb_ge (i + ls) 0)) by lia.
  rewrite (proj2 (Z.ltb_ge (i + ls + Z.of_nat k) 0)) by lia.
  apply Z.ltb_ge in En.
  replace (Z.min (i + ls + Z.of_nat k) n - Z.min (i + ls) n)%Z
    with (Z.of_nat k) by lia.
  replace (Z.min (i + ls) n) with (i + ls)%Z by lia.
  rewrite Nat2Z.id. by apply find_first_take_none.
Qed.

Lemma between_loop_items (fuel : nat) :
  finish ≠ "" →
  ∀ (result l : list string) (i j : Z),
    ((0 ≤ i)%Z → j = py_find source finish (i + ls)) →
    Forall (λ item, find_first finish item = None) result →
    between_loop fuel source start finish result i j = Return l →
    Forall (λ item, find_first finish item = None) l.
Proof.
  intros Hne. induction fuel as [|fuel IH]; intros result l i j Hinv Hres;
    [done |].
  cbn [between_loop].
  destruct ((0 <=? i)%Z && (0 <=? j)%Z) eqn:Hc; [| by intros [= <-]].
  apply andb_true_iff in Hc as [Hi0%Z.leb_le Hj0%Z.leb_le].
  specialize (Hinv Hi0). fold ls lf.
  apply IH; [done |].
  apply Forall_app. split; [done |]. constructor; [| done].
  subst j. by apply slice_without_finish.
Qed.

Lemma find_first_drop_none (sub : string) (a : nat) :
  ∀ s, find_first sub s = None → find_first sub (drop_chars a s) = None.
Proof.
  induction a as [|a IH]; intros s; [done |].
  destruct s as [|c s]; [done |].
  rewrite find_first_eq. destruct (String.prefix sub (String c s)); [done |].
  destruct (find_first sub s) eqn:Hs; [done |]. intros _. simpl. by apply IH.
Qed.

Lemma py_find_absent (sub : string) (x : Z) :
  find_first sub source = None → py_find source sub x = (-1)%Z.
Proof.
  intros Habs. unfold py_find.
  destruct (_ <? _)%Z; [done |]. by rewrite find_first_drop_none.
Qed.

End Between.

(** X10. [between] returns as soon as one of the two delimiters is not
    empty: each turn of its loop finds the next [finish] strictly
    further in [source], so it makes at most [len(source) + 1] turns. *)
Theorem between_returns :
  ∀ (fuel : nat) (source start finish : string),
    start ≠ "" ∨ finish ≠ "" →
    String.length source + 2 ≤ fuel →
    ∃ l, between fuel source start finish = Return l.
Proof.
  intros fuel source start finish Hne Hfuel. unfold between.
  set (i := py_find source start 0).
  pose proof (py_find_range source finish (i + Z.of_nat (String.length start)))
    as Hj.
  apply between_loop_returns; [done | lia | lia | lia].
Qed.

Lemma between_returns_witness :
  (">" ≠ "" ∨ "<" ≠ "")
  ∧ (∃ l, between 45 "hello >30< test >20< asdf >>10<< sadf>" ">" "<" = Return l)
  ∧ between 45 "hello >30< test >20< asdf >>10<< sadf>" ">" "<"
    = Return ["30"; "20"; ">10"].
Proof.
  assert (">" ≠ "") as H by discriminate.
  split; [by left |]. split; [| by vm_compute].
  apply between_returns; [by left | simpl; lia].
Defined.

(** X11. With both delimiters empty [between] never returns: [find]
    answers 0 for both at every turn, and the loop goes on appending an
    empty item to its result for as long as it is run. *)
Theorem between_empty_delimiters_loops :
  ∀ (fuel : nat) (source : string), between fuel source "" "" = OutOfFuel.
Proof.
  intros fuel source.
  assert (∀ x, x = 0%Z → py_find source "" x = 0%Z) as Hfind.
  { intros x ->. unfold py_find. simpl.
    destruct (Z.of_nat (String.length source) <? 0)%Z eqn:E;
      [apply Z.ltb_lt in E; lia |].
    rewrite find_first_eq. by destruct source. }
  unfold between. simpl. rewrite !Hfind by (rewrite ?Hfind; done).
  generalize (@nil string) as result.
  induction fuel as [|fuel IH]; intros result; [done |].
  cbn [between_loop]. simpl.
  rewrite !Hfind by (rewrite ?Hfind; done). apply IH.
Qed.

(** X12. No item that [between] returns holds the [finish] delimiter,
    when that delimiter is not empty: an item ends at the first
    [finish] after its [start]. (An item may hold [start].) *)
Theorem between_items_hold_no_finish :
  ∀ (fuel : nat) (source start finish : string) (l : list string),
    finish ≠ "" →
    between fuel source start finish = Return l →
    Forall (λ item, find_first finish item = None) l.
Proof.
  intros fuel source start finish l Hne. unfold between.
  by apply between_loop_items.
Qed.

Lemma between_items_hold_no_finish_witness :
  "<" ≠ ""
  ∧ between 45 "hello >30< test >20< asdf >>10<< sadf>" ">" "<"
    = Return ["30"; "20"; ">10"]
  ∧ Forall (λ item, find_first "<" item = None) ["30"; "20"; ">10"].
Proof.
  assert ("<" ≠ "") as H by discriminate.
  assert (between 45 "hello >30< test >20< asdf >>10<< sadf>" ">" "<"
          = Return ["30"; "20"; ">10"]) as Hb by (by vm_compute).
  split; [exact H |]. split; [exact Hb |].
  exact (between_items_hold_no_finish 45 _ ">" "<" _ H Hb).
Defined.

(** X13. [between] returns the empty list when [start] does not occur
    in [source], and when [finish] does not. *)
Theorem between_nothing_found :
  ∀ (fuel : nat) (source start finish : string),
    1 ≤ fuel →
    find_first start source = None ∨ find_first finish source = None →
    between fuel source start finish = Return [].
Proof.
  intros fuel source start finish Hfuel Habs. unfold between.
  destruct fuel as [|fuel]; [lia |]. cbn [between_loop].
  destruct Habs as [Hs | Hf].
  - by rewrite (py_find_absent source start 0 Hs).
  - rewrite (py_find_absent source finish _ Hf). by rewrite andb_false_r.
Qed.

Lemma between_nothing_found_witness :
  1 ≤ 1
  ∧ find_first "<" "a > b" = None
  ∧ between 1 "a > b" ">" "<" = Return [].
Proof.
  split; [lia |]. split; [reflexivity |].
  exact (between_nothing_found 1 "a > b" ">" "<" (le_n 1) (or_intror eq_refl)).
Defined.


(** * The class [Httpy] *)

Lemma dict_literal_reverse (items : list (string * string)) :
  dict_literal items = list_to_map (reverse items).
Proof.
  induction items as [|kv items IH] using rev_ind; [done |].
  rewrite dict_literal_snoc, reverse_snoc, IH. by destruct kv.
Qed.

(** A dict rebuilt from its own items is the dict. *)
Lemma dict_literal_map_to_list (m : gmap string string) :
  dict_literal (map_to_list m) = m.
Proof.
  rewrite dict_literal_reverse.
  rewrite <- (list_to_map_to_list m) at 2.
  apply list_to_map_proper; [| apply reverse_Permutation].
  rewrite reverse_Permutation. apply NoDup_fst_map_to_list.
Qed.

(** X14. The headers [get] and [post] send are the caller's with
    [User-agent] set to the client's own: a [User-agent] given by the
    caller is overwritten, every other header is kept. *)
Theorem merge_headers_forces_user_agent :
  ∀ {net : Type} `{!Httpy.World net} (headers : gmap string string)
    (st : Httpy.state net),
    Httpy.merge_headers headers st
      = <["User-agent" := Httpy.user_agent st]> headers
    ∧ Httpy.merge_headers headers st !! "User-agent"
      = Some (Httpy.user_agent st)
    ∧ ∀ k, k ≠ "User-agent" →
           Httpy.merge_headers headers st !! k = headers !! k.
Proof.
  intros net W headers st.
  assert (Httpy.merge_headers headers st
          = <["User-agent" := Httpy.user_agent st]> headers) as ->.
  { unfold Httpy.merge_headers, Httpy.get_headers.
    rewrite map_to_list_singleton, dict_literal_snoc. simpl.
    by rewrite dict_literal_map_to_list. }
  split; [done |]. split; [apply lookup_insert_eq |].
  intros k Hk. by apply lookup_insert_ne.
Qed.

Lemma merge_headers_forces_user_agent_witness :
  "Accept" ≠ "User-agent"
  ∧ Httpy.merge_headers (net := Httpy.site_table)
      (<["User-agent" := "curl"]> {[ "Accept" := "text/html" ]})
      (Httpy.init (Some "rip3") Httpy.sample_sites) !! "Accept"
    = (<["User-agent" := "curl"]> {[ "Accept" := "text/html" ]}
         : gmap string string) !! "Accept".
Proof.
  assert ("Accept" ≠ "User-agent") as H by discriminate.
  split; [exact H |].
  exact (proj2 (proj2 (@merge_headers_forces_user_agent Httpy.site_table
                         Httpy.table_world
                         (<["User-agent" := "curl"]> {[ "Accept" := "text/html" ]})
                         (Httpy.init (Some "rip3") Httpy.sample_sites)))
           "Accept" H).
Defined.

(** X15. [get_meta] asks twice: once through [unshorten] and once for
    the url that came back. When the first request fails it asks for
    the same url again, and when that fails too both failures are
    logged, in that order, and the second error is raised. *)
Theorem get_meta_asks_twice :
  ∀ {net : Type} `{!Httpy.World net} (url : string) (st : Httpy.state net)
    (e1 e2 : Httpy.error) (w1 w2 : net),
    let req := Httpy.mkRequest url None {[ "User-agent" := Httpy.user_agent st ]} in
    Httpy.net_open req (Httpy.web st) = (inl e1, w1) →
    Httpy.net_open req w1 = (inl e2, w2) →
    Httpy.get_meta url st
    = (inl e2,
       Httpy.mkState (Httpy.user_agent st)
         (Httpy.logfile st ++
            [ "Httpy: unshorten(" +:+ url +:+ "): Exception " +:+ Httpy.err_msg e1
              +:+ NL;
              "Httpy: get_meta(" +:+ url +:+ "): Exception " +:+ Httpy.err_msg e2
              +:+ NL ])
         w2 (Httpy.files st)).
Proof.
  intros net W url st e1 e2 w1 w2 req H1 H2.
  unfold Httpy.get_meta, Httpy.unshorten, Httpy.open_url, Httpy.get_headers.
  fold req. rewrite H1. cbn. fold req. rewrite H2. cbn.
  unfold Httpy.log. cbn. rewrite <- app_assoc. simpl.
  by rewrite !append_assoc.
Qed.

Lemma get_meta_asks_twice_witness :
  Httpy.get_meta (net := Httpy.site_table) "http://b/g"
    (Httpy.init None Httpy.sample_sites)
  = (inl Httpy.no_route,
     Httpy.mkState Httpy.default_user_agent
       ([] ++
        [ "Httpy: unshorten(" +:+ "http://b/g" +:+ "): Exception "
          +:+ Httpy.err_msg Httpy.no_route +:+ NL;
          "Httpy: get_meta(" +:+ "http://b/g" +:+ "): Exception "
          +:+ Httpy.err_msg Httpy.no_route +:+ NL ])
       Httpy.sample_sites ∅).
Proof.
  assert (Httpy.net_open
            (Httpy.mkRequest "http://b/g" None
               {[ "User-agent" :=
                    Httpy.user_agent (Httpy.init None Httpy.sample_sites) ]})
            Httpy.sample_sites
          = (inl Httpy.no_route, Httpy.sample_sites)) as Hopen
    by (vm_compute; reflexivity).
  exact (@get_meta_asks_twice Httpy.site_table Httpy.table_world "http://b/g"
           (Httpy.init None Httpy.sample_sites) Httpy.no_route Httpy.no_route
           Httpy.sample_sites Httpy.sample_sites Hopen Hopen).
Defined.

Lemma download_loop_good (good : list string) :
  ∀ (rest : list (Httpy.error + string)) (written : string),
    Forall (λ b, b ≠ "") good →
    Httpy.download_loop ((inr <$> good) ++ rest) written
    = Httpy.download_loop rest (written +:+ Str.join "" good).
Proof.
  induction good as [|b good IH]; intros rest written Hgood.
  - simpl. by rewrite append_nil_r.
  - apply Forall_cons in Hgood as [Hb Hgood]. cbn [fmap list_fmap app Httpy.download_loop].
    rewrite bool_decide_eq_false_2 by (destruct b; [done | simpl; lia]).
    rewrite IH by done. f_equal.
    destruct good as [|b2 good]; simpl; [by rewrite append_nil_r |].
    by rewrite !append_assoc.
Qed.

(** X16. [download] writes to [save_as] the chunks it reads, in order,
    up to the first empty read; a read that raises ends it with that
    error and leaves what was written before. No other file is
    touched. *)
Theorem download_writes_until_empty_read :
  ∀ {net : Type} `{!Httpy.World net} (url save_as : string)
    (st : Httpy.state net) (f : Httpy.response) (w1 : net)
    (good : list string) (rest : list (Httpy.error + string)),
    Httpy.net_open
      (Httpy.mkRequest url None {[ "User-agent" := Httpy.user_agent st ]})
      (Httpy.web st) = (inr f, w1) →
    Httpy.resp_chunks f = (inr <$> good) ++ rest →
    Forall (λ b, b ≠ "") good →
    match rest with
    | inr b :: _ => b = ""
    | _ => True
    end →
    (Httpy.download url save_as st).1
      = match rest with
        | inl e :: _ => inl e
        | _ => inr ()
        end
    ∧ Httpy.files (Httpy.download url save_as st).2 !! save_as
      = Some (Str.join "" good)
    ∧ ∀ other, other ≠ save_as →
               Httpy.files (Httpy.download url save_as st).2 !! other
               = Httpy.files st !! other.
Proof.
  intros net W url save_as st f w1 good rest Hopen Hchunks Hgood Hstop.
  unfold Httpy.download, Httpy.open_url, Httpy.get_headers. cbn.
  rewrite Hopen, Hchunks, download_loop_good by done. cbn.
  assert (Httpy.download_loop rest (Str.join "" good)
          = (match rest with inl e :: _ => Some e | _ => None end,
             Str.join "" good)) as ->.
  { destruct rest as [|[e|b] rest]; [done | done |]. subst b. done. }
  cbn. split; [by destruct rest as [|[e|b] rest] |].
  split; [apply lookup_insert_eq |].
  intros other Hne. by rewrite !lookup_insert_ne.
Qed.

Lemma download_writes_until_empty_read_witness :
  (Httpy.download (net := Httpy.site_table) "http://a/f" "f.bin"
     (Httpy.init None Httpy.sample_sites)).1 = inr ()
  ∧ Httpy.files
      (Httpy.download (net := Httpy.site_table) "http://a/f" "f.bin"
         (Httpy.init None Httpy.sample_sites)).2 !! "f.bin"
    = Some "abcd".
Proof.
  assert (Httpy.net_open
            (Httpy.mkRequest "http://a/f" None
               {[ "User-agent" :=
                    Httpy.user_agent (Httpy.init None Httpy.sample_sites) ]})
            (Httpy.web (Httpy.init None Httpy.sample_sites))
          = (inr Httpy.sample_response, Httpy.sample_sites)) as Hopen
    by (vm_compute; reflexivity).
  assert (Forall (λ b : string, b ≠ "") ["ab"; "cd"]) as Hgood
    by (repeat constructor; discriminate).
  pose proof (@download_writes_until_empty_read Httpy.site_table
                Httpy.table_world "http://a/f" "f.bin"
                (Httpy.init None Httpy.sample_sites) Httpy.sample_response
                Httpy.sample_sites ["ab"; "cd"] [inr ""; inr "zz"]
                Hopen eq_refl Hgood eq_refl)
    as (H1 & H2 & _).
  exact (conj H1 H2).
Defined.

(** X17. [download] empties [save_as] before it asks for anything: when
    the request fails, the error comes out and the file is left empty,
    whatever it held. *)
Theorem download_truncates_before_request :
  ∀ {net : Type} `{!Httpy.World net} (url save_as : string)
    (st : Httpy.state net) (e : Httpy.error) (w1 : net),
    Httpy.net_open
      (Httpy.mkRequest url None {[ "User-agent" := Httpy.user_agent st ]})
      (Httpy.web st) = (inl e, w1) →
    (Httpy.download url save_as st).1 = inl e
    ∧ Httpy.files (Httpy.download url save_as st).2 !! save_as = Some ""
    ∧ Httpy.logfile (Httpy.download url save_as st).2 = Httpy.logfile st.
Proof.
  intros net W url save_as st e w1 Hopen.
  unfold Httpy.download, Httpy.open_url, Httpy.get_headers. cbn.
  rewrite Hopen. cbn. split; [done |]. split; [apply lookup_insert_eq | done].
Qed.

Lemma download_truncates_before_request_witness :
  (Httpy.download (net := Httpy.site_table) "http://b/g" "f.bin"
     (Httpy.mkState "rip3" [] Httpy.sample_sites {[ "f.bin" := "old" ]})).1
    = inl Httpy.no_route
  ∧ Httpy.files
      (Httpy.download (net := Httpy.site_table) "http://b/g" "f.bin"
         (Httpy.mkState "rip3" [] Httpy.sample_sites {[ "f.bin" := "old" ]})).2
      !! "f.bin"
    = Some "".
Proof.
  assert (Httpy.net_open
            (Httpy.mkRequest "http://b/g" None {[ "User-agent" := "rip3" ]})
            Httpy.sample_sites
          = (inl Httpy.no_route, Httpy.sample_sites)) as Hopen
    by (vm_compute; reflexivity).
  pose proof (@download_truncates_before_request Httpy.site_table
                Httpy.table_world "http://b/g" "f.bin"
                (Httpy.mkState "rip3" [] Httpy.sample_sites {[ "f.bin" := "old" ]})
                Httpy.no_route Httpy.sample_sites Hopen) as (H1 & H2 & _).
  exact (conj H1 H2).
Defined.

(** X18. A [create_table] or [create_index] that returns has sent the
    connection exactly one statement, the one it built, and only then
    has it committed: its calls are the statement, then the commit
    attempts that failed, if any, then the one successful commit,
    which is the last call. *)
Theorem ddl_returns_after_one_commit :
  ∀ {conn : Type} `{!Engine conn} (fuel : nat)
    (table_name schema index key : string) (name : option string)
    (db db' : DB conn),
    (create_table fuel table_name schema db = (Return (), db') →
     ∃ q n, create_table_query table_name schema = Return q
            ∧ history db' =
                history db ++ CallExecute q []
                  :: replicate n (CallCommit false) ++ [CallCommit true]
            ∧ executed db' = executed db ++ [q]
            ∧ commits_ok db' = S (commits_ok db))
    ∧ (create_index fuel index key name db = (Return (), db') →
       ∃ n, history db' =
              history db
              ++ CallExecute
                   (create_index_query (default (index_name index key) name)
                      index key) []
                 :: replicate n (CallCommit false) ++ [CallCommit true]
            ∧ executed db' =
                executed db
                ++ [create_index_query (default (index_name index key) name)
                      index key]
            ∧ commits_ok db' = S (commits_ok db)).
Proof.
  intros conn E fuel table_name schema index key name db db'. split.
  - intros Hr. pose proof (create_table_history _ _ _ _ _ Hr) as (q & n & Hq & Hh).
    apply create_table_effect in Hr as (q' & Hq' & He & Hk).
    rewrite Hq in Hq'. injection Hq' as <-. by exists q, n.
  - intros Hr. pose proof (create_index_history _ _ _ _ _ _ Hr) as (n & Hh).
    apply create_index_effect in Hr as [He Hk]. by exists n.
Qed.

Lemma ddl_returns_after_one_commit_witness :
  ∃ db', create_index (conn := Scripted.conn) 3 "medias" "albumid,i_index"
           (Some "medias_by_album")
           (mkDB [Some locked_error] Stderr [] [] "" 0 [])
         = (Return (), db')
         ∧ ∃ n, history db'
                = [] ++ CallExecute
                          (create_index_query "medias_by_album" "medias"
                             "albumid,i_index") []
                        :: replicate n (CallCommit false) ++ [CallCommit true].
Proof.
  exists (create_index (conn := Scripted.conn) 3 "medias" "albumid,i_index"
            (Some "medias_by_album")
            (mkDB [Some locked_error] Stderr [] [] "" 0 [])).2.
  assert (create_index (conn := Scripted.conn) 3 "medias" "albumid,i_index"
            (Some "medias_by_album")
            (mkDB [Some locked_error] Stderr [] [] "" 0 [])
          = (Return (),
             (create_index (conn := Scripted.conn) 3 "medias" "albumid,i_index"
                (Some "medias_by_album")
                (mkDB [Some locked_error] Stderr [] [] "" 0 [])).2)) as H
    by reflexivity.
  split; [exact H |].
  destruct (proj2 (@ddl_returns_after_one_commit Scripted.conn Scripted.engine 3
                     "" "" "medias" "albumid,i_index" (Some "medias_by_album")
                     (mkDB [Some locked_error] Stderr [] [] "" 0 []) _) H)
    as (n & Hh & _).
  exists n. exact Hh.
Defined.
